(** * Ecosvery: the remote-data-access core

  A shallow embedding of the retry loop, the TTL cache over
  [sessionStorage], the UniProt speclist parser and the species-list
  loader of

  - [src/utils/apiHelpers.ts]  ([fetchWithRetry], [getCachedData],
    [setCachedData]) and
  - [src/services/uniprotSpecies.ts] ([parseUniProtSpecList],
    [loadUniProtSpeciesList], [getCommonName], [getCommonNames],
    [preloadUniProtData]).

  JavaScript strings are modelled by [string]; every character stands
  for one UTF-16 code unit below 256 (the speclist file is ASCII).
  Numbers that the code handles (HTTP statuses, millisecond clocks and
  durations) are integers and are modelled by [Z]. *)

From Stdlib Require Import ZArith Lia Ascii String List Bool DecimalString DecimalZ.
From stdpp Require Import base option gmap strings list.

Local Open Scope string_scope.
Local Open Scope Z_scope.

(** ** JavaScript string primitives *)

Module JsString.

Definition code (c : ascii) : Z := Z.of_N (N_of_ascii c).

Definition in_range (lo hi : Z) (c : ascii) : bool :=
  (lo <=? code c) && (code c <=? hi).

(** [WhiteSpace] and [LineTerminator] code units below 256: this is the
    set stripped by [String.prototype.trim] and matched by [\s]. *)
Definition isWhiteSpace (c : ascii) : bool :=
  in_range 9 13 c || (code c =? 32) || (code c =? 160).

Definition isDigit (c : ascii) : bool := in_range 48 57 c.
Definition isUpper (c : ascii) : bool := in_range 65 90 c.

Definition truthy (s : string) : bool :=
  match s with EmptyString => false | String _ _ => true end.

Fixpoint startsWith (p s : string) : bool :=
  match p, s with
  | EmptyString, _ => true
  | String _ _, EmptyString => false
  | String a p', String b s' => Ascii.eqb a b && startsWith p' s'
  end.

Fixpoint includes (needle s : string) : bool :=
  startsWith needle s ||
  match s with
  | EmptyString => false
  | String _ r => includes needle r
  end.

Fixpoint trimStart (s : string) : string :=
  match s with
  | EmptyString => EmptyString
  | String c r => if isWhiteSpace c then trimStart r else s
  end.

Fixpoint trimEnd (s : string) : string :=
  match s with
  | EmptyString => EmptyString
  | String c r =>
      match trimEnd r with
      | EmptyString => if isWhiteSpace c then EmptyString else String c EmptyString
      | r' => String c r'
      end
  end.

Definition trim (s : string) : string := trimEnd (trimStart s).

(** [s.substring(n)] *)
Fixpoint substringFrom (n : nat) (s : string) : string :=
  match n, s with
  | O, _ => s
  | S _, EmptyString => EmptyString
  | S n', String _ r => substringFrom n' r
  end.

Definition newline : ascii := ascii_of_nat 10.

(** [s.split('\n')]: never empty, [''.split('\n')] is [['']]. *)
Fixpoint split_nl (s : string) : list string :=
  match s with
  | EmptyString => [EmptyString]
  | String c r =>
      if Ascii.eqb c newline then EmptyString :: split_nl r
      else match split_nl r with
           | l :: ls => String c l :: ls
           | [] => [String c EmptyString]
           end
  end.

(** [toLowerCase] on code units below 256: A-Z, and the Latin-1 capitals
    U+00C0..U+00DE except the multiplication sign U+00D7. *)
Definition lowerChar (c : ascii) : ascii :=
  if isUpper c || (in_range 192 222 c && negb (code c =? 215))
  then ascii_of_N (N_of_ascii c + 32)
  else c.

Fixpoint toLowerCase (s : string) : string :=
  match s with
  | EmptyString => EmptyString
  | String c r => String (lowerChar c) (toLowerCase r)
  end.

End JsString.

Import JsString.

(** ** The speclist parser ([parseUniProtSpecList]) *)

Module Parser.

(** *** The two regular expressions of the parser

    Both are matched by hand.  In
    [/^[A-Z0-9]{5}\s+[VEBAO]\s+\d+:/] every repetition is followed by a
    class disjoint from the repeated one, so the greedy match never
    backtracks. *)

Definition re_class (p : ascii -> bool) (s : string) : option string :=
  match s with
  | String c r => if p c then Some r else None
  | EmptyString => None
  end.

Fixpoint skipWhile (p : ascii -> bool) (s : string) : string :=
  match s with
  | String c r => if p c then skipWhile p r else s
  | EmptyString => EmptyString
  end.

Definition re_plus (p : ascii -> bool) (s : string) : option string :=
  skipWhile p <$> re_class p s.

Definition isCodeChar (c : ascii) : bool := isUpper c || isDigit c.

Definition isKindLetter (c : ascii) : bool :=
  existsb (Ascii.eqb c) ["V"; "E"; "B"; "A"; "O"]%char.

Definition isColon (c : ascii) : bool := Ascii.eqb c ":"%char.

(** Run the matchers one after the other, each on what the previous one
    left. *)
Definition re_seq (ms : list (string -> option string)) (s : string)
  : option string :=
  fold_left (fun acc m => match acc with Some r => m r | None => None end)
            ms (Some s).

(** [line.match(/^[A-Z0-9]{5}\s+[VEBAO]\s+\d+:/)] is not null *)
Definition header_re (line : string) : bool :=
  match re_seq [re_class isCodeChar; re_class isCodeChar;
                re_class isCodeChar; re_class isCodeChar;
                re_class isCodeChar;
                re_plus isWhiteSpace; re_class isKindLetter;
                re_plus isWhiteSpace; re_plus isDigit;
                re_class isColon] line with
  | Some _ => true
  | None => false
  end.

Definition isParen (c : ascii) : bool :=
  Ascii.eqb c "("%char || Ascii.eqb c ")"%char.

(** [s] is [body ++ ")"] where [body] holds no closing parenthesis:
    what [[^)]*\)$] accepts. *)
Fixpoint closes_at_end (s : string) : bool :=
  match s with
  | EmptyString => false
  | String c r =>
      if Ascii.eqb c ")"%char
      then match r with EmptyString => true | _ => false end
      else closes_at_end r
  end.

(** What may follow the captured name: [(?:\s*\([^)]*\))?$]. *)
Definition name_tail (r : string) : bool :=
  match r with
  | EmptyString => true
  | _ => match skipWhile isWhiteSpace r with
         | String c body => Ascii.eqb c "("%char && closes_at_end body
         | EmptyString => false
         end
  end.

(** The lazy group [([^()]+?)]: the shortest non-empty run of
    non-parenthesis characters after which [name_tail] matches. *)
Fixpoint lazy_name (rest : string) : option string :=
  match rest with
  | EmptyString => None
  | String c r =>
      if isParen c then None
      else if name_tail r then Some (String c EmptyString)
      else String c <$> lazy_name r
  end.

(** Group 1 of [line.match(/N=([^()]+?)(?:\s*\([^)]*\))?$/)], tried at
    every occurrence of [N=] from the left. *)
Fixpoint nMatch (line : string) : option string :=
  match line with
  | EmptyString => None
  | String _ r =>
      if startsWith "N=" line
      then match lazy_name (substringFrom 2 line) with
           | Some g => Some g
           | None => nMatch r
           end
      else nMatch r
  end.

(** *** The loop over the lines *)

Record pstate := PState {
  speciesMap : gmap string string;
  currentScientificName : string;
  inDataSection : bool
}.

Definition initial : pstate := PState ∅ "" false.

(** Outcome of one loop iteration: go on with the next line
    ([continue] or the end of the body) or leave the loop ([break]). *)
Inductive ctl := Next (st : pstate) | Break (st : pstate).

Definition real_header : string := "(1) Real organism codes".
Definition virtual_header : string := "(2) Virtual codes".

(** the [N=] block of the loop body *)
Definition onName (line : string) (st : pstate) : pstate :=
  if header_re line && includes "N=" line then
    match nMatch line with
    | Some g => PState (speciesMap st) (trim g) (inDataSection st)
    | None => st
    end
  else st.

(** the [C=] block *)
Definition onCommon (trimmedLine : string) (st : pstate) : pstate :=
  if startsWith "C=" trimmedLine && truthy (currentScientificName st) then
    let commonName := trim (substringFrom 2 trimmedLine) in
    if truthy commonName
    then PState (<[currentScientificName st := commonName]> (speciesMap st))
                (currentScientificName st) (inDataSection st)
    else st
  else st.

(** the [S=] block *)
Definition onSynonym (trimmedLine : string) (st : pstate) : pstate :=
  if startsWith "S=" trimmedLine && truthy (currentScientificName st) then
    if bool_decide (is_Some (speciesMap st !! currentScientificName st))
    then st
    else PState (speciesMap st) "" (inDataSection st)
  else st.

Definition parseLine (line : string) (st : pstate) : ctl :=
  if includes real_header line then
    Next (PState (speciesMap st) (currentScientificName st) true)
  else if includes virtual_header line then Break st
  else if negb (inDataSection st) then Next st
  else if startsWith "_____" line || startsWith "===" line then Next st
  else
    let trimmedLine := trim line in
    if negb (truthy trimmedLine) then Next st
    else Next (onSynonym trimmedLine (onCommon trimmedLine (onName line st))).

Fixpoint parseLoop (lines : list string) (st : pstate) : pstate :=
  match lines with
  | [] => st
  | line :: rest =>
      match parseLine line st with
      | Next st' => parseLoop rest st'
      | Break st' => st'
      end
  end.

Definition parseLines (lines : list string) : gmap string string :=
  speciesMap (parseLoop lines initial).

Definition parseUniProtSpecList (text : string) : gmap string string :=
  parseLines (split_nl text).

(** *** What the lines of the input are to the loop *)

(** The line passes the gates of the loop body that do not depend on
    the parser state: it holds no section header, is no separator and is
    not blank. *)
Definition data_line (line : string) : bool :=
  negb (includes real_header line) && negb (includes virtual_header line) &&
  negb (startsWith "_____" line || startsWith "===" line) &&
  truthy (trim line).

(** The scientific name a data line makes current, if it does: the line
    is a record header. *)
Definition sets_name (line : string) : option string :=
  if data_line line && (header_re line && includes "N=" line)
  then trim <$> nMatch line
  else None.

(** The line is a [C=] data line with a non-empty common name. *)
Definition records_common (line : string) : bool :=
  data_line line && startsWith "C=" (trim line) &&
  truthy (trim (substringFrom 2 (trim line))).

(** [n] is the name set by the last record header among [lines]. *)
Definition current_of (lines : list string) (n : string) : Prop :=
  exists pre nline mid,
    lines = (pre ++ nline :: mid)%list /\
    sets_name nline = Some n /\
    Forall (fun l => sets_name l = None) mid.

(** [k] has a record in [lines]: a header line naming [k], then lines
    that start no other record, then a [C=] line. *)
Definition recorded_by (lines : list string) (k : string) : Prop :=
  exists pre nline mid cline post,
    lines = (pre ++ nline :: mid ++ cline :: post)%list /\
    sets_name nline = Some k /\
    Forall (fun l => sets_name l = None) mid /\
    records_common cline = true.

(** The loop invariant: [done] are the lines read so far. *)
Record parser_inv (done : list string) (st : pstate) : Prop := {
  inv_map : forall k, is_Some (speciesMap st !! k) -> recorded_by done k;
  inv_current : truthy (currentScientificName st) = true ->
                current_of done (currentScientificName st);
  inv_gate : inDataSection st = false -> currentScientificName st = ""
}.

(** *** Sample inputs *)

Definition nl : string := String newline EmptyString.

Definition sample_record : string :=
  "AAAAA V 000001: N=Testus exemplus" ++ nl ++
  "      S=Testus synonymus" ++ nl.

Definition sample_file : string :=
  "header text" ++ nl ++
  "(1) Real organism codes" ++ nl ++
  "=======================" ++ nl ++
  "_____ _ _______  _______" ++ nl ++
  "AADNV V  648330: N=Aedes albopictus densovirus (isolate Boublik/1994)" ++ nl ++
  "                 C=AalDNV" ++ nl ++
  "AAAAA V 000001: N=Testus exemplus" ++ nl ++
  "                S=Testus synonymus" ++ nl ++
  "                C=Stray name" ++ nl ++
  "HUMAN E    9606: N=Homo sapiens" ++ nl ++
  "                 C=Human" ++ nl ++
  "                 S=Man" ++ nl ++
  "(2) Virtual codes" ++ nl ++
  "9ZZZZ E    1234: N=Late entry" ++ nl ++
  "                 C=Late" ++ nl.

(** A record without [C=] line, followed by a record whose header
    matches the header expression but whose name has two parenthesised
    groups. *)
Definition second_header : string :=
  "BBBBB V 000002: N=Alter exemplus (strain 1) (isolate 2)".

Definition leak_source : string :=
  real_header ++ nl ++
  "AAAAA V 000001: N=Testus exemplus" ++ nl ++
  second_header ++ nl ++
  "                C=Other name" ++ nl.

(** The same, followed by a record whose code has three characters. *)
Definition short_code_header : string := "PIG   E    9823: N=Sus scrofa".

Definition short_code_source : string :=
  real_header ++ nl ++
  "AAAAA V 000001: N=Testus exemplus" ++ nl ++
  short_code_header ++ nl ++
  "                 C=Pig" ++ nl.

(** [leak_source] with a second header whose name has one parenthesised
    group, which the [N=] expression reads. *)
Definition single_group_header : string :=
  "BBBBB V 000002: N=Alter exemplus (strain 1)".

Definition recognised_source : string :=
  real_header ++ nl ++
  "AAAAA V 000001: N=Testus exemplus" ++ nl ++
  single_group_header ++ nl ++
  "                C=Other name" ++ nl.

(** [leak_source] with an [S=] line in the first record. *)
Definition guarded_source : string :=
  real_header ++ nl ++
  "AAAAA V 000001: N=Testus exemplus" ++ nl ++
  "                S=Testus synonymus" ++ nl ++
  second_header ++ nl ++
  "                C=Other name" ++ nl.

Definition late_entries : string :=
  "9ZZZZ E    1234: N=Late entry" ++ nl ++ "                 C=Late".

End Parser.

Import Parser.


(** ** Resilient fetch ([fetchWithTimeout], [fetchWithRetry]) *)

Module Fetch.

Definition DEFAULT_TIMEOUT : Z := 30000.
Definition DEFAULT_RETRY_ATTEMPTS : Z := 3.
Definition RETRY_DELAY_MS : Z := 1000.

(** Values that are thrown: an [ApiError] with its optional [status] and
    [endpoint], or any other [Error].  Everything thrown in the model is
    an instance of [Error], so the conversion [new Error(String(error))]
    of [fetchWithRetry] never applies. *)
Inductive error :=
| ApiError (message : string) (status : option Z) (endpoint : option string)
| Error (message : string).

(** The part of a [Response] that the code reads.  [body] is what
    [response.text()] resolves to, [None] when it rejects. *)
Record Response := {
  status : Z;
  statusText : string;
  body : option string
}.

(** [response.ok]: the status is in the range 200-299. *)
Definition ok (r : Response) : bool :=
  (200 <=? status r) && (status r <=? 299).

(** How a promise settles. *)
Inductive outcome (A : Type) :=
| Resolves (a : A)
| Rejects (e : error).
Arguments Resolves {A} a.
Arguments Rejects {A} e.

(** What the network does with one request: answer, fail, or stay
    silent until the timer aborts the request. *)
Inductive net :=
| Responds (r : Response)
| Fails (e : error)
| Hangs.

Definition Z_to_string (z : Z) : string :=
  NilEmpty.string_of_int (Z.to_int z).

Definition fetchWithTimeout (url : string) (timeout : Z) (n : net)
  : outcome Response :=
  match n with
  | Responds response => Resolves response
  | Fails e => Rejects e
  | Hangs =>
      Rejects (ApiError ("Request timeout after " ++ Z_to_string timeout ++ "ms")
                        None (Some url))
  end.

(** What [fetchWithRetry] does, in order. *)
Inductive event :=
| Attempt (attempt : Z)
| Sleep (delay : Z).

(** The test under which a response is returned to the caller. *)
Definition accepted (response : Response) : bool :=
  ok response || ((400 <=? status response) && (status response <? 500)).

(** The wait at the end of the loop body. *)
Definition backoff (maxRetries attempt : Z) (log : list event) : list event :=
  if attempt <? maxRetries - 1
  then (log ++ [Sleep (RETRY_DELAY_MS * 2 ^ attempt)])%list
  else log.

(** The [for] loop; [iterations] counts the passes that are left and
    [env] tells what the network does at each attempt. *)
Fixpoint retryLoop (url : string) (env : Z -> net) (maxRetries : Z)
    (iterations : nat) (attempt : Z) (lastError : option error)
    (log : list event) : list event * outcome Response :=
  match iterations with
  | O =>
      (log,
       Rejects (default (ApiError "Unknown error" None (Some url)) lastError))
  | S n =>
      let log1 := (log ++ [Attempt attempt])%list in
      match fetchWithTimeout url DEFAULT_TIMEOUT (env attempt) with
      | Resolves response =>
          if accepted response then (log1, Resolves response)
          else
            let e := ApiError ("HTTP " ++ Z_to_string (status response) ++ ": "
                               ++ statusText response)
                              (Some (status response)) (Some url) in
            retryLoop url env maxRetries n (attempt + 1) (Some e)
                      (backoff maxRetries attempt log1)
      | Rejects e =>
          retryLoop url env maxRetries n (attempt + 1) (Some e)
                    (backoff maxRetries attempt log1)
      end
  end.

Definition fetchWithRetry (url : string) (env : Z -> net) (maxRetries : Z)
  : list event * outcome Response :=
  retryLoop url env maxRetries (Z.to_nat maxRetries) 0 None [].

(** The log of a loop in which no attempt is accepted: attempts in
    order, and after attempt [k], unless it is the last one, a wait of
    [RETRY_DELAY_MS * 2 ^ k]. *)
Fixpoint all_retried (attempt : Z) (iterations : nat) : list event :=
  match iterations with
  | O => []
  | S n =>
      Attempt attempt ::
      match n with
      | O => []
      | S _ => Sleep (RETRY_DELAY_MS * 2 ^ attempt) :: all_retried (attempt + 1) n
      end
  end.

Definition never_accepted (env : Z -> net) : Prop :=
  forall k, match env k with
            | Responds r => accepted r = false
            | _ => True
            end.

(** A response the server keeps sending in the examples. *)
Definition not_modified : Response :=
  {| status := 304; statusText := "Not Modified"; body := Some "" |}.

Definition not_found : Response :=
  {| status := 404; statusText := "Not Found"; body := Some "" |}.

Definition unavailable : Response :=
  {| status := 503; statusText := "Service Unavailable"; body := Some "" |}.

End Fetch.

(** ** TTL cache over [sessionStorage] ([getCachedData], [setCachedData]) *)

Module Cache.

(** The object that [setCachedData] serializes and [getCachedData]
    reads back.  A field that is missing (or [undefined], which
    [JSON.stringify] drops) is [None]; the two numeric fields are
    integers. *)
Record envelope (T : Type) := Envelope {
  value : option T;
  _timestamp : option Z;
  _ttl : option Z
}.
Arguments Envelope {T} value _timestamp _ttl.
Arguments value {T} e.
Arguments _timestamp {T} e.
Arguments _ttl {T} e.

(** What [JSON.parse] does with a stored string: throw a [SyntaxError],
    give [null], or give an object (of which the envelope fields are
    read). *)
Inductive parsed (T : Type) :=
| ThrowsSyntaxError
| ParsedNull
| Parsed (data : envelope T).
Arguments ThrowsSyntaxError {T}.
Arguments ParsedNull {T}.
Arguments Parsed {T} data.

(** The browser functions the cache relies on: [JSON.parse],
    [JSON.stringify] ([None] when it throws) and whether
    [sessionStorage.setItem] accepts a write ([false] when it throws,
    for instance over quota).  They are not part of the repository and
    are taken as parameters. *)
Record platform (T : Type) := Platform {
  JSON_parse : string -> parsed T;
  JSON_stringify : envelope T -> option string;
  setItem_accepts : gmap string string -> string -> string -> bool
}.
Arguments JSON_parse {T} p s.
Arguments JSON_stringify {T} p e.
Arguments setItem_accepts {T} p store key s.

(** How a block of statements ends. *)
Inductive completion (A : Type) :=
| Return (a : A)
| Throw.
Arguments Return {A} a.
Arguments Throw {A}.

Section Cache.

Context {T : Type} (P : platform T).

(** [x || Infinity]; [None] stands for [Infinity]. *)
Definition or_Infinity (x : option Z) : option Z :=
  match x with
  | Some t => if t =? 0 then None else Some t
  | None => None
  end.

(** [age > ttl] *)
Definition exceeds (age : Z) (ttl : option Z) : bool :=
  match ttl with
  | Some t => t <? age
  | None => false
  end.

(** The truth value of [data._timestamp]. *)
Definition has_timestamp (data : envelope T) : option Z :=
  match _timestamp data with
  | Some ts => if ts =? 0 then None else Some ts
  | None => None
  end.

(** The body of the [try] block of [getCachedData]; [now] is what
    [Date.now()] gives. *)
Definition getCachedData_try (key : string) (now : Z)
    (store : gmap string string)
  : gmap string string * completion (option T) :=
  match store !! key with
  | None => (store, Return None)
  | Some cached =>
      if negb (truthy cached) then (store, Return None)
      else
        match JSON_parse P cached with
        | ThrowsSyntaxError => (store, Throw)
        | ParsedNull => (store, Throw)
        | Parsed data =>
            match has_timestamp data with
            | Some ts =>
                let age := now - ts in
                let ttl := or_Infinity (_ttl data) in
                if exceeds age ttl
                then (delete key store, Return None)
                else (store, Return (value data))
            | None => (store, Return (value data))
            end
        end
  end.

Definition getCachedData (key : string) (now : Z)
    (store : gmap string string) : gmap string string * option T :=
  match getCachedData_try key now store with
  | (store', Return v) => (store', v)
  | (store', Throw) => (store', None)
  end.

(** [setCachedData(key, value, { ttl })]; a failure of [JSON.stringify]
    or of [setItem] is caught and the store is left as it was. *)
Definition setCachedData (key : string) (v : T) (ttl : option Z) (now : Z)
    (store : gmap string string) : gmap string string :=
  let data := Envelope (Some v) (Some now) ttl in
  match JSON_stringify P data with
  | Some s =>
      if setItem_accepts P store key s then <[key := s]> store else store
  | None => store
  end.

(** [setCachedData] did write [data] as [s], and [s] reads back as
    [data]. *)
Definition written (data : envelope T) (s : string)
    (key : string) (store : gmap string string) : Prop :=
  JSON_stringify P data = Some s /\
  setItem_accepts P store key s = true /\
  truthy s = true /\
  JSON_parse P s = Parsed data.

End Cache.

(** A platform that knows one string: it serializes every object to
    [s] and parses [s], and nothing else, to [data]. *)
Definition single_entry_platform {T : Type} (s : string) (data : envelope T)
  : platform T :=
  Platform T
    (fun s' => if String.eqb s' s then Parsed data else ThrowsSyntaxError)
    (fun _ => Some s)
    (fun _ _ _ => true).

(** Sample platforms: a cached name written at clock reading 1000 with
    a zero TTL, and one with a TTL of 100 ms. *)
Definition zero_ttl_entry : envelope string :=
  Envelope (Some "Gray wolf") (Some 1000) (Some 0).

Definition zero_ttl_platform : platform string :=
  single_entry_platform "{value:Gray wolf,_timestamp:1000,_ttl:0}"
                        zero_ttl_entry.

Definition short_ttl_entry : envelope string :=
  Envelope (Some "Gray wolf") (Some 1000) (Some 100).

Definition short_ttl_platform : platform string :=
  single_entry_platform "{value:Gray wolf,_timestamp:1000,_ttl:100}"
                        short_ttl_entry.

End Cache.

(** ** The species list ([loadUniProtSpeciesList] and the lookups) *)

Module Species.

Import Fetch Cache.

(** The source says 24 hours in its comment and computes 500 hours. *)
Definition UNIPROT_CACHE_TTL : Z := 500 * 60 * 60 * 1000.

Definition cache_key : string := "uniprot_species_list".

(** [new Map(entries)]: the entries are set one after the other, so a
    later entry replaces an earlier one with the same key. *)
Definition Map_of (entries : list (string * string)) : gmap string string :=
  fold_left (fun m kv => <[kv.1 := kv.2]> m) entries ∅.

Section Loader.

(** The cache holds the map as an array of pairs; the URL of the record
    source comes from the build environment. *)
Context (P : platform (list (string * string))).
Context (VITE_UNIPROT_FTP_URL : string).

(** The [try] block of [loadUniProtSpeciesList]: [n] is what the network
    does with the request and [now] the clock when the cache is
    written.  [[...speciesMap.entries()]] is [map_to_list]; the order of
    the array is not modelled. *)
Definition loadFromServer (n : net) (now : Z) (store : gmap string string)
  : gmap string string * completion (gmap string string) :=
  match fetchWithTimeout VITE_UNIPROT_FTP_URL 60000 n with
  | Rejects _ => (store, Throw)
  | Resolves response =>
      if negb (ok response) then (store, Throw)
      else
        match body response with
        | None => (store, Throw)
        | Some text =>
            if negb (truthy text) || (Z.of_nat (String.length text) <? 1000)
            then (store, Throw)
            else
              let speciesMap := parseUniProtSpecList text in
              if bool_decide (size speciesMap = 0%nat) then (store, Throw)
              else
                (setCachedData P cache_key (map_to_list speciesMap)
                               (Some UNIPROT_CACHE_TTL) now store,
                 Return speciesMap)
        end
  end.

(** [now_read] is the clock when the cache is read, [now_write] when it
    is written. *)
Definition loadUniProtSpeciesList (now_read now_write : Z) (n : net)
    (store : gmap string string)
  : gmap string string * completion (gmap string string) :=
  match getCachedData P cache_key now_read store with
  | (store1, Some cached) => (store1, Return (Map_of cached))
  | (store1, None) =>
      match loadFromServer n now_write store1 with
      | (store2, Return speciesMap) => (store2, Return speciesMap)
      | (store2, Throw) => (store2, Return ∅)
      end
  end.

(** The failures the [try] block guards against. *)
Definition load_fails (n : net) : Prop :=
  match n with
  | Responds response =>
      ok response = false \/
      match body response with
      | None => True
      | Some text =>
          text = "" \/ (String.length text < 1000)%nat \/
          parseUniProtSpecList text = ∅
      end
  | Fails _ => True
  | Hangs => True
  end.

End Loader.

(** *** Lookups in the loaded map *)

(** [a || b] for a map lookup [a]: [undefined] and [''] are falsy. *)
Definition or_else (a : option string) (b : string) : string :=
  match a with
  | Some v => if truthy v then v else b
  | None => b
  end.

(** [speciesCache.get(name) || speciesCache.get(name.toLowerCase()) || ''] *)
Definition lookupName (speciesCache : gmap string string)
    (scientificName : string) : string :=
  or_else (speciesCache !! scientificName)
          (or_else (speciesCache !! toLowerCase scientificName) "").

(** The loop of [getCommonNames]. *)
Definition lookupNames (speciesCache : gmap string string)
    (scientificNames : list string) : gmap string string :=
  fold_left
    (fun results name =>
       let commonName := lookupName speciesCache name in
       if truthy commonName then <[name := commonName]> results else results)
    scientificNames ∅.

(** *** The module state and its callers

    The three exported functions are asynchronous.  A caller runs
    without interruption up to its [await] (or its [return]) and, once
    the awaited promise has settled, from there to its end; callers
    interleave only at these points. *)

Inductive call :=
| getCommonName (scientificName : string)
| getCommonNames (scientificNames : list string)
| preloadUniProtData.

Inductive result :=
| Name (commonName : string)
| Names (results : gmap string string)
| Void.

Definition answer (speciesCache : gmap string string) (c : call) : result :=
  match c with
  | getCommonName scientificName => Name (lookupName speciesCache scientificName)
  | getCommonNames scientificNames =>
      Names (lookupNames speciesCache scientificNames)
  | preloadUniProtData => Void
  end.

(** A caller is suspended at [await cachePromise] on promise [p], or has
    returned.  [owner] marks the caller that started the load and that
    clears [cachePromise] when it resumes. *)
Inductive task :=
| Awaiting (c : call) (p : nat) (owner : bool)
| Done (c : call) (r : result).

(** [promises] holds one promise per call of [loadUniProtSpeciesList]:
    [None] while pending, the map once resolved. *)
Record world := World {
  speciesCache : option (gmap string string);
  cachePromise : option nat;
  promises : list (option (gmap string string));
  tasks : list task
}.

Definition initial : world := World None None [] [].

(** The number of calls of [loadUniProtSpeciesList] so far. *)
Definition loads (w : world) : nat := length (promises w).

Definition spawn (t : task) (w : world) : world :=
  World (speciesCache w) (cachePromise w) (promises w) (tasks w ++ [t]).

(** [cachePromise = loadUniProtSpeciesList(); ... await cachePromise] *)
Definition startLoad (c : call) (w : world) : world :=
  let p := length (promises w) in
  World (speciesCache w) (Some p) (promises w ++ [None])
        (tasks w ++ [Awaiting c p true]).

(** A caller enters one of the three functions. *)
Definition invoke (c : call) (w : world) : world :=
  match c with
  | preloadUniProtData =>
      match speciesCache w, cachePromise w with
      | None, None => startLoad c w
      | _, _ => spawn (Done c Void) w
      end
  | _ =>
      match speciesCache w with
      | Some m => spawn (Done c (answer m c)) w
      | None =>
          match cachePromise w with
          | Some p => spawn (Awaiting c p false) w
          | None => startLoad c w
          end
      end
  end.

(** The loader's promise [p] resolves with [m]. *)
Definition settle (p : nat) (m : gmap string string) (w : world) : world :=
  match promises w !! p with
  | Some None =>
      World (speciesCache w) (cachePromise w) (<[p := Some m]> (promises w))
            (tasks w)
  | _ => w
  end.

(** [speciesCache = await cachePromise; (cachePromise = null;) return ...] *)
Definition resume (i : nat) (w : world) : world :=
  match tasks w !! i with
  | Some (Awaiting c p owner) =>
      match promises w !! p with
      | Some (Some m) =>
          World (Some m) (if owner then None else cachePromise w)
                (promises w) (<[i := Done c (answer m c)]> (tasks w))
      | _ => w
      end
  | _ => w
  end.

Inductive action :=
| Invoke (c : call)
| Settle (p : nat) (m : gmap string string)
| Resume (i : nat).

Definition step (w : world) (a : action) : world :=
  match a with
  | Invoke c => invoke c w
  | Settle p m => settle p m w
  | Resume i => resume i w
  end.

Definition run (schedule : list action) (w : world) : world :=
  fold_left step schedule w.

(** What holds of the module state whatever the callers and the
    scheduler do. *)
Record single_flight (w : world) : Prop := {
  sf_loads : (loads w <= 1)%nat;
  sf_promise : forall p, cachePromise w = Some p -> p = 0%nat /\ loads w = 1%nat;
  sf_idle : speciesCache w = None -> cachePromise w = None ->
            promises w = [] /\ tasks w = [];
  sf_cache : forall m, speciesCache w = Some m -> promises w = [Some m];
  sf_waiting : forall i c p o, tasks w !! i = Some (Awaiting c p o) ->
               p = 0%nat /\ loads w = 1%nat;
  sf_done : forall i c r, tasks w !! i = Some (Done c r) ->
            match promises w with
            | [Some m] => r = answer m c
            | _ => c = preloadUniProtData /\ r = Void
            end
}.

(** What a caller that is not the first becomes when it enters before
    the load has finished, and what every caller ends as once the map
    [m] is there. *)
Definition later (c : call) : task :=
  match c with
  | preloadUniProtData => Done c Void
  | _ => Awaiting c 0 false
  end.


(** *** Sample inputs *)

Fixpoint spaces (n : nat) : string :=
  match n with
  | O => EmptyString
  | S n' => String " "%char (spaces n')
  end.

(** A record source of more than 1000 characters with two records that
    have a common name. *)
Definition sample_source : string := sample_file ++ spaces 1000.

Definition sample_response : Response :=
  {| status := 200; statusText := "OK"; body := Some sample_source |}.

Definition sample_entries : list (string * string) :=
  [("Aedes albopictus densovirus", "AalDNV"); ("Homo sapiens", "Human")].

Definition show_field (x : option Z) : string :=
  match x with
  | Some z => Z_to_string z
  | None => "undefined"
  end.

(** A platform whose serialization shows the two numeric fields of the
    envelope, and that parses the serialization of [data] back. *)
Definition render (e : envelope (list (string * string))) : string :=
  "{_timestamp:" ++ show_field (_timestamp e) ++
  ",_ttl:" ++ show_field (_ttl e) ++ "}".

Definition rendering_platform (data : envelope (list (string * string)))
  : platform (list (string * string)) :=
  Platform _
    (fun s => if String.eqb s (render data) then Parsed data
              else ThrowsSyntaxError)
    (fun e => Some (render e))
    (fun _ _ _ => true).

Definition wolf_map : gmap string string := {[ "Canis lupus" := "Gray wolf" ]}.

Definition wolf_source : string :=
  real_header ++ nl ++
  "CANLU E    9612: N=Canis lupus" ++ nl ++
  "                 C=Gray wolf" ++ nl.

End Species.

(** ** What the retry loop ends with *)

Module Retry.

Import Fetch.

(** The error that one failed attempt leaves in [lastError]: made from
    the response, or the error thrown by [fetchWithTimeout]. *)
Definition failure_of (url : string) (n : net) : error :=
  match fetchWithTimeout url DEFAULT_TIMEOUT n with
  | Resolves response =>
      ApiError ("HTTP " ++ Z_to_string (status response) ++ ": "
                ++ statusText response)
               (Some (status response)) (Some url)
  | Rejects e => e
  end.

(** The attempt is not accepted: it throws, or its response is neither
    2xx nor 4xx. *)
Definition retried (n : net) : bool :=
  match n with
  | Responds r => negb (accepted r)
  | Fails _ => true
  | Hangs => true
  end.

(** The time spent waiting between attempts. *)
Definition total_wait (log : list event) : Z :=
  fold_right (fun e acc => match e with Sleep d => d + acc | Attempt _ => acc end)
             0 log.

Definition failing : net := Fails (Error "Failed to fetch").

(** A network that fails twice and then answers 200. *)
Definition flaky (k : Z) : net :=
  if k <? 2 then failing
  else Responds {| status := 200; statusText := "OK"; body := Some "{}" |}.

End Retry.

(** ** Stale entries *)

Module CacheSpec.

Import Cache.

(** The entry under [key] is a well-formed one that is too old at
    clock reading [now]. *)
Definition stale {T : Type} (P : platform T) (key : string) (now : Z)
    (store : gmap string string) : Prop :=
  exists cached data ts,
    store !! key = Some cached /\ truthy cached = true /\
    JSON_parse P cached = Parsed data /\ has_timestamp data = Some ts /\
    exceeds (now - ts) (or_Infinity (_ttl data)) = true.

End CacheSpec.

(** ** What the parser keeps and what it skips *)

Module ParserSpec.

Fixpoint all_chars (p : ascii -> bool) (s : string) : bool :=
  match s with
  | EmptyString => true
  | String c r => p c && all_chars p r
  end.

Definition no_paren (s : string) : bool :=
  all_chars (fun c => negb (isParen c)) s.

(** A string as the parser stores it: trimmed, and for a scientific
    name without parentheses. *)
Definition clean_name (k : string) : Prop := trim k = k /\ no_paren k = true.

(** Inside the data section, a line of this kind is passed over: a
    separator, a blank line, or a line that is no record header and
    starts with neither [C=] nor [S=]. *)
Definition ignorable (line : string) : bool :=
  negb (includes real_header line) && negb (includes virtual_header line) &&
  (startsWith "_____" line || startsWith "===" line ||
   negb (truthy (trim line)) ||
   (negb (header_re line && includes "N=" line) &&
    negb (startsWith "C=" (trim line)) &&
    negb (startsWith "S=" (trim line)))).

(** What holds of the parser state all along. *)
Record clean_state (st : pstate) : Prop := {
  clean_current : clean_name (currentScientificName st);
  clean_entries : forall k v, speciesMap st !! k = Some v ->
    truthy k = true /\ clean_name k /\ truthy v = true /\ trim v = v
}.

End ParserSpec.

(** ** Sample data for the lookups *)

Module LookupSamples.

Definition lower_map : gmap string string := {[ "canis lupus" := "Gray wolf" ]}.

(** A record source of more than 1000 characters without the
    real-organism header. *)
Definition headless_source : string :=
  "HUMAN E    9606: N=Homo sapiens" ++ nl ++
  "                 C=Human" ++ nl ++ Species.spaces 1000.

Definition headless_response : Fetch.Response :=
  {| Fetch.status := 200; Fetch.statusText := "OK";
     Fetch.body := Some headless_source |}.

(** The envelope that a load of [sample_source] at clock reading 5000
    writes. *)
Definition loaded_envelope : Cache.envelope (list (string * string)) :=
  Cache.Envelope
    (Some (map_to_list (parseUniProtSpecList Species.sample_source)))
    (Some 5000) (Some Species.UNIPROT_CACHE_TTL).

End LookupSamples.

(** ** Start-up check of the environment ([validateEnvironment]) *)

Module Environment.

Definition requiredVars : list string :=
  ["VITE_BACKEND_BASE_URL"; "VITE_UNIPROT_FTP_URL";
   "VITE_YOUTUBE_EMBED_BASE_URL"; "VITE_DEFAULT_VIDEO_ID";
   "VITE_DEFAULT_IMAGE_URL"].

(** [!import.meta.env[varName]]: the variable is not set, or set to the
    empty string.  [env] maps the variables that are set to their
    values. *)
Definition unset (env : gmap string string) (varName : string) : bool :=
  match env !! varName with
  | Some v => negb (truthy v)
  | None => true
  end.

Record validation := Validation {
  valid : bool;
  missing : list string
}.

Definition validateEnvironment (env : gmap string string) : validation :=
  let missing := List.filter (unset env) requiredVars in
  Validation (Nat.eqb (List.length missing) 0) missing.

(** An environment with every required variable but one. *)
Definition sample_env : gmap string string :=
  {[ "VITE_BACKEND_BASE_URL" := "http://localhost:3000";
     "VITE_UNIPROT_FTP_URL" := "/speclist.txt";
     "VITE_YOUTUBE_EMBED_BASE_URL" := "";
     "VITE_DEFAULT_VIDEO_ID" := "abc";
     "VITE_DEFAULT_IMAGE_URL" := "/wolf.png" ]}.

End Environment.

(** ** Debouncing ([debounce]) *)

Module Debounce.

Section Debounce.

Context {Args : Type}.

(** The state of one debounced function: the pending timer, if there is
    one, with the arguments its callback [later] will pass on, and the
    calls of [func] made so far.  Each call of the debounced function
    clears the timer before it sets a new one, so there is one pending
    timer at most. *)
Record dstate := DState {
  timeout : option Args;
  invoked : list Args
}.

Definition idle : dstate := DState None [].

(** [executedFunction(...args)]: clear the pending timer and set one
    for [later]. *)
Definition executedFunction (args : Args) (st : dstate) : dstate :=
  DState (Some args) (invoked st).

(** The timer fires and runs [later]: [timeout = null; func(...args)]. *)
Definition later (st : dstate) : dstate :=
  match timeout st with
  | Some args => DState None (invoked st ++ [args])%list
  | None => st
  end.

(** What happens to a debounced function: it is called, or [wait]
    milliseconds have passed since the timer was set. *)
Inductive devent :=
| Call (args : Args)
| Elapse.

Definition dstep (st : dstate) (e : devent) : dstate :=
  match e with
  | Call args => executedFunction args st
  | Elapse => later st
  end.

Definition drun (events : list devent) (st : dstate) : dstate :=
  fold_left dstep events st.

(** The arguments of the calls among the events. *)
Definition called (events : list devent) : list Args :=
  omap (fun e => match e with Call args => Some args | Elapse => None end)
       events.

(** The arguments [func] is still to be called with. *)
Definition pending (st : dstate) : list Args :=
  match timeout st with
  | Some args => [args]
  | None => []
  end.

End Debounce.

Arguments dstate Args : clear implicits.
Arguments devent Args : clear implicits.

End Debounce.

(** ** The IUCN service ([getSpeciesByCategory], [getSpeciesByPage]) *)

Module Iucn.

Import Fetch Cache.

Definition CACHE_TTL : Z := 24 * 60 * 60 * 1000.

(** The fields of an assessment that the service reads. *)
Record Assessment := {
  assessment_id : Z;
  sis_taxon_id : Z;
  taxon_scientific_name : string;
  red_list_category_code : string;
  year_published : string
}.

Record Species := {
  sp_assessment_id : Z;
  taxonid : Z;
  scientific_name : string;
  kingdom_name : string;
  phylum_name : string;
  class_name : string;
  order_name : string;
  family_name : string;
  genus_name : string;
  main_common_name : string;
  authority : string;
  published_year : Z;
  assessment_date : string;
  category : string;
  criteria : string;
  population_trend : string;
  marine_system : bool;
  freshwater_system : bool;
  terrestrial_system : bool
}.

(** What [await response.json()] gives: it throws (the body cannot be
    read, or is no JSON), or gives [null], or an object, of which the
    fields [assessments] and [error] are read ([None] when the field is
    missing). *)
Inductive json_body :=
| BodyThrows
| BodyNull
| BodyObject (assessments : option (list Assessment)) (error : option string).

(** [s.split(' ')[0] || '']: what comes before the first space. *)
Fixpoint firstWord (s : string) : string :=
  match s with
  | EmptyString => EmptyString
  | String c r => if Ascii.eqb c " "%char then EmptyString
                  else String c (firstWord r)
  end.

(** [value || ''] for a map lookup. *)
Definition or_empty (value : option string) : string :=
  match value with
  | Some v => v
  | None => ""
  end.

(** [x || 0] for what [parseInt] gives ([None] is [NaN]). *)
Definition or_zero (x : option Z) : Z :=
  match x with
  | Some z => z
  | None => 0
  end.

(** The [catch] block of the service functions: an [ApiError] is thrown
    again, anything else is replaced. *)
Definition rethrow_as_api {A : Type} (message : string) (r : outcome A)
  : outcome A :=
  match r with
  | Resolves a => Resolves a
  | Rejects (ApiError m s e) => Rejects (ApiError m s e)
  | Rejects (Error _) => Rejects (ApiError message None None)
  end.

Section Service.

(** From the build environment and the browser: the base URL of the
    backend, [response.json()], [parseInt], and the platform under the
    cache of species pages. *)
Context (VITE_BACKEND_BASE_URL : string).
Context (response_json : Response -> json_body).
Context (parseInt : string -> option Z).
Context (P : platform (list Species)).

Definition PROXY_BASE : string := VITE_BACKEND_BASE_URL ++ "/proxy-api".

Definition getApiUrl (endpoint : string) : string := PROXY_BASE ++ endpoint.

(** The [try] block of [getSpeciesByCategory], after the fetch. *)
Definition categoryResult (category : string) (res : outcome Response)
  : outcome (list Assessment) :=
  match res with
  | Rejects e => Rejects e
  | Resolves response =>
      if negb (ok response) then
        Rejects (ApiError "Failed to fetch species by category"
                          (Some (status response))
                          (Some (getApiUrl ("/red_list_categories/" ++ category))))
      else
        match response_json response with
        | BodyThrows => Rejects (Error "SyntaxError")
        | BodyNull => Rejects (Error "TypeError")
        | BodyObject assessments _ => Resolves (default [] assessments)
        end
  end.

(** [env] tells what the network does at each attempt; the result
    comes with the log of the attempts and waits. *)
Definition getSpeciesByCategory (category : string) (page : Z)
    (env : Z -> net) : list event * outcome (list Assessment) :=
  let url := getApiUrl ("/red_list_categories/" ++ category ++ "?page="
                        ++ Z_to_string page) in
  let '(log, res) := fetchWithRetry url env DEFAULT_RETRY_ATTEMPTS in
  (log, rethrow_as_api "Network error while fetching species by category"
                       (categoryResult category res)).

(** The object built for one assessment in [getSpeciesByPage], given
    the common name found for it. *)
Definition buildSpecies (commonName : string) (a : Assessment) : Species :=
  let genus := firstWord (taxon_scientific_name a) in
  {| sp_assessment_id := assessment_id a;
     taxonid := sis_taxon_id a;
     scientific_name := taxon_scientific_name a;
     kingdom_name := "ANIMALIA";
     phylum_name := "CHORDATA";
     class_name := "MAMMALIA";
     order_name := "";
     family_name := "";
     genus_name := genus;
     main_common_name := commonName;
     authority := "";
     published_year := or_zero (parseInt (year_published a));
     assessment_date := year_published a;
     category := red_list_category_code a;
     criteria := "";
     population_trend := "";
     marine_system := false;
     freshwater_system := false;
     terrestrial_system := true |}.

(** [commonNamesMap.get(a.taxon_scientific_name) || ''] *)
Definition toSpecies (commonNamesMap : gmap string string) (a : Assessment)
  : Species :=
  buildSpecies (or_empty (commonNamesMap !! taxon_scientific_name a)) a.

Definition pageKey (page : Z) : string := "iucn_page_" ++ Z_to_string page.

(** The [try] block of [getSpeciesByPage], after the fetch.
    [speciesCache] is the map that [getCommonNames] reads, once
    loaded. *)
Definition pageResult (page : Z) (speciesCache : gmap string string)
    (res : outcome Response) : outcome (list Species) :=
  match res with
  | Rejects e => Rejects e
  | Resolves response =>
      if negb (ok response) then
        Rejects (ApiError ("Failed to fetch species page " ++ Z_to_string page)
                          (Some (status response))
                          (Some (getApiUrl "/taxa/class/MAMMALIA")))
      else
        match response_json response with
        | BodyThrows => Rejects (Error "SyntaxError")
        | BodyNull => Rejects (Error "TypeError")
        | BodyObject assessments error =>
            if truthy (or_empty error) then
              Rejects (ApiError (or_empty error) None None)
            else
              let assessments := default [] assessments in
              let scientificNames := taxon_scientific_name <$> assessments in
              let commonNamesMap :=
                Species.lookupNames speciesCache scientificNames in
              Resolves (toSpecies commonNamesMap <$> assessments)
        end
  end.

(** [now_read] is the clock when the cache is read, [now_write] when it
    is written. *)
Definition getSpeciesByPage (page : Z) (now_read now_write : Z)
    (env : Z -> net) (speciesCache : gmap string string)
    (store : gmap string string)
  : gmap string string * list event * outcome (list Species) :=
  let cacheKey := pageKey page in
  match getCachedData P cacheKey now_read store with
  | (store1, Some cached) => (store1, [], Resolves cached)
  | (store1, None) =>
      let url := getApiUrl ("/taxa/class/MAMMALIA?page=" ++ Z_to_string page
                            ++ "&latest=true") in
      let '(log, res) := fetchWithRetry url env DEFAULT_RETRY_ATTEMPTS in
      match pageResult page speciesCache res with
      | Resolves species =>
          (setCachedData P cacheKey species (Some CACHE_TTL) now_write store1,
           log, Resolves species)
      | Rejects e =>
          (store1, log,
           rethrow_as_api "Network error while fetching species"
                          (Rejects e))
      end
  end.

(** The object for one assessment, with the common name looked up in
    the loaded map itself. *)
Definition speciesOf (speciesCache : gmap string string) (a : Assessment)
  : Species :=
  buildSpecies (Species.lookupName speciesCache (taxon_scientific_name a)) a.

End Service.

(** *** Sample data *)

Definition wolf : Assessment :=
  {| assessment_id := 247624660; sis_taxon_id := 3746;
     taxon_scientific_name := "Canis lupus";
     red_list_category_code := "LC"; year_published := "2023" |}.

Definition forbidden : Response :=
  {| status := 403; statusText := "Forbidden"; body := Some "" |}.

Definition wolves_response : Response :=
  {| status := 200; statusText := "OK"; body := Some "{assessments:[wolf]}" |}.

(** A [response.json()] that knows [wolves_response]. *)
Definition sample_json (r : Response) : json_body :=
  if bool_decide (body r = Some "{assessments:[wolf]}")
  then BodyObject (Some [wolf]) None
  else BodyThrows.

Definition sample_parseInt (s : string) : option Z :=
  if String.eqb s "2023" then Some 2023 else None.

Definition wolf_species : Species :=
  toSpecies sample_parseInt {[ "Canis lupus" := "Gray wolf" ]} wolf.

Definition page_envelope : envelope (list Species) :=
  Envelope (Some [wolf_species]) (Some 5000) (Some CACHE_TTL).

Definition page_platform : platform (list Species) :=
  single_entry_platform "{value:[wolf],_timestamp:5000,_ttl:86400000}"
                        page_envelope.

End Iucn.

(** ** The species list of the user interface ([SpeciesList]) *)

Module SpeciesList.

Import Iucn.

(** [l.findIndex(p)]; [None] stands for -1. *)
Fixpoint findIndex {A : Type} (p : A -> bool) (l : list A) : option nat :=
  match l with
  | [] => None
  | x :: r => if p x then Some 0%nat else S <$> findIndex p r
  end.

(** [l.filter((x, index) => keep x index)], from position [index] on. *)
Fixpoint filterFrom {A : Type} (keep : A -> nat -> bool) (index : nat)
    (l : list A) : list A :=
  match l with
  | [] => []
  | x :: r =>
      if keep x index then x :: filterFrom keep (S index) r
      else filterFrom keep (S index) r
  end.

(** [data.filter((species, index, self) =>
       index === self.findIndex((s) => s.taxonid === species.taxonid))] *)
Definition uniqueSpecies (data : list Species) : list Species :=
  filterFrom
    (fun species index =>
       bool_decide (findIndex (fun s => taxonid s =? taxonid species) data
                    = Some index))
    0 data.

(** The species of [l] whose [taxonid] is not in [seen] and not that of
    an earlier species of [l]. *)
Fixpoint firstOccurrences (seen : list Z) (l : list Species) : list Species :=
  match l with
  | [] => []
  | s :: r =>
      if bool_decide (taxonid s ∈ seen) then firstOccurrences seen r
      else s :: firstOccurrences (taxonid s :: seen) r
  end.

(** The test of [filteredSpecies]. *)
Definition matches (searchTerm : string) (s : Species) : bool :=
  includes (toLowerCase searchTerm) (toLowerCase (main_common_name s)) ||
  includes (toLowerCase searchTerm) (toLowerCase (scientific_name s)).

Definition filteredSpecies (species : list Species) (searchTerm : string)
  : list Species :=
  List.filter (matches searchTerm) species.

Definition twice_wolf : list Species :=
  [wolf_species; wolf_species].

End SpeciesList.

(** ** Facts about the string primitives *)

Section StringFacts.

Lemma split_nl_nonempty (s : string) : split_nl s <> [].
Proof.
  destruct s as [|c r]; simpl; [discriminate|].
  destruct (Ascii.eqb c newline); [discriminate|].
  destruct (split_nl r); discriminate.
Qed.

(** Splitting distributes over a line break. *)
Lemma split_nl_app (a b : string) :
  split_nl (a ++ String newline b) = (split_nl a ++ split_nl b)%list.
Proof.
  induction a as [|c r IH]; simpl.
  - reflexivity.
  - destruct (Ascii.eqb c newline).
    + now rewrite IH.
    + rewrite IH. pose proof (split_nl_nonempty r) as Hr.
      destruct (split_nl r); [contradiction | reflexivity].
Qed.

Lemma codeChar_not_space (c : ascii) :
  isCodeChar c = true -> isWhiteSpace c = false.
Proof.
  destruct c as [[] [] [] [] [] [] [] []]; vm_compute; congruence.
Qed.

Lemma codeChar_not_equals (c : ascii) :
  isCodeChar c = true -> Ascii.eqb "="%char c = false.
Proof.
  destruct c as [[] [] [] [] [] [] [] []]; vm_compute; congruence.
Qed.

Lemma trimEnd_keeps_head (c : ascii) (r : string) :
  isWhiteSpace c = false -> exists r', trimEnd (String c r) = String c r'.
Proof.
  intros Hc. simpl. destruct (trimEnd r); rewrite ?Hc; eauto.
Qed.

End StringFacts.

(** ** Facts about the parser *)

Section ParserFacts.

Lemma onName_sets_name line st :
  data_line line = true ->
  onName line st =
  match sets_name line with
  | Some n => PState (speciesMap st) n (inDataSection st)
  | None => st
  end.
Proof.
  intros Hd. unfold onName, sets_name. rewrite Hd. simpl.
  destruct (header_re line && includes "N=" line); [|reflexivity].
  destruct (nMatch line); reflexivity.
Qed.

Lemma header_starts_with_code line :
  header_re line = true ->
  exists c1 c2 r, line = String c1 (String c2 r) /\
                  isCodeChar c1 = true /\ isCodeChar c2 = true.
Proof.
  unfold header_re, re_seq.
  destruct line as [|c1 [|c2 r]]; simpl.
  - discriminate.
  - destruct (isCodeChar c1); simpl; discriminate.
  - destruct (isCodeChar c1) eqn:H1; simpl.
    + destruct (isCodeChar c2) eqn:H2; simpl; [eauto 7|].
      intros; discriminate.
    + intros; discriminate.
Qed.

(** A record header line is never read as a [C=] line. *)
Lemma header_not_common line :
  header_re line = true -> startsWith "C=" (trim line) = false.
Proof.
  intros (c1 & c2 & r & -> & H1 & H2)%header_starts_with_code.
  pose proof (codeChar_not_space _ H1) as W1.
  pose proof (codeChar_not_space _ H2) as W2.
  unfold trim. simpl trimStart. rewrite W1.
  destruct (trimEnd_keeps_head c2 r W2) as [r2 E2].
  change (trimEnd (String c1 (String c2 r)))
    with (match trimEnd (String c2 r) with
          | EmptyString =>
              if isWhiteSpace c1 then EmptyString else String c1 EmptyString
          | r' => String c1 r'
          end).
  rewrite E2.
  change (startsWith "C=" (String c1 (String c2 r2)))
    with (Ascii.eqb "C"%char c1 && (Ascii.eqb "="%char c2 && true)).
  rewrite (codeChar_not_equals _ H2). now rewrite andb_false_r.
Qed.

Lemma sets_name_not_common line n :
  sets_name line = Some n -> startsWith "C=" (trim line) = false.
Proof.
  unfold sets_name. destruct (data_line line); simpl; [|discriminate].
  destruct (header_re line) eqn:H; simpl; [|discriminate].
  intros _. now apply header_not_common.
Qed.

(** A line that fails a state-independent gate leaves the map and the
    current name alone. *)
Lemma parseLine_skipped line st :
  data_line line = false ->
  exists b, (parseLine line st = Break st \/
             parseLine line st =
               Next (PState (speciesMap st) (currentScientificName st) b)) /\
            (inDataSection st = true -> b = true).
Proof.
  unfold data_line, parseLine. intros Hd.
  destruct (includes real_header line); [exists true; auto|].
  destruct (includes virtual_header line); [exists true; auto|].
  exists (inDataSection st). split; [right|auto].
  destruct st as [m c d]; cbn [speciesMap currentScientificName inDataSection].
  destruct d; cbn [negb]; [|reflexivity].
  destruct (startsWith "_____" line || startsWith "===" line);
    [reflexivity|].
  cbn [negb andb] in Hd. now rewrite Hd.
Qed.

Lemma parseLine_data line st :
  data_line line = true ->
  parseLine line st =
  if inDataSection st
  then Next (onSynonym (trim line) (onCommon (trim line) (onName line st)))
  else Next st.
Proof.
  unfold data_line, parseLine. intros Hd.
  destruct (includes real_header line); [discriminate|].
  destruct (includes virtual_header line); [discriminate|].
  destruct (inDataSection st); cbn [negb]; [|reflexivity].
  destruct (startsWith "_____" line || startsWith "===" line);
    [discriminate|].
  cbn [negb andb] in Hd. now rewrite Hd.
Qed.

Lemma recorded_by_app lines more k :
  recorded_by lines k -> recorded_by (lines ++ more) k.
Proof.
  intros (pre & nline & mid & cline & post & -> & Hn & Hm & Hc).
  exists pre, nline, mid, cline, (post ++ more)%list.
  repeat split; auto.
  now rewrite <- !app_assoc, <- !app_comm_cons, <- app_assoc.
Qed.

Lemma current_of_snoc lines line n :
  current_of lines n -> sets_name line = None ->
  current_of (lines ++ [line]) n.
Proof.
  intros (pre & nline & mid & -> & Hn & Hm) Hl.
  exists pre, nline, (mid ++ [line])%list. repeat split; auto.
  - now rewrite <- app_assoc.
  - apply Forall_app; auto.
Qed.

Lemma current_of_recorded lines cline n :
  current_of lines n -> records_common cline = true ->
  recorded_by (lines ++ [cline]) n.
Proof.
  intros (pre & nline & mid & -> & Hn & Hm) Hc.
  exists pre, nline, mid, cline, []. repeat split; auto.
  now rewrite <- app_assoc.
Qed.

Lemma parser_inv_initial : parser_inv [] initial.
Proof.
  split; simpl; try discriminate; auto.
  intros k [v Hk]. now rewrite lookup_empty in Hk.
Qed.

Lemma parser_inv_reset done st :
  parser_inv done st ->
  parser_inv done (PState (speciesMap st) "" (inDataSection st)).
Proof.
  intros [Hm Hc Hg]. split; cbn; auto. discriminate.
Qed.

Lemma parser_inv_synonym done st t :
  parser_inv done st -> parser_inv done (onSynonym t st).
Proof.
  intros H. unfold onSynonym.
  destruct (startsWith "S=" t && truthy (currentScientificName st)); auto.
  case_bool_decide; auto using parser_inv_reset.
Qed.

Lemma sets_name_skipped line : data_line line = false -> sets_name line = None.
Proof. intros H. unfold sets_name. now rewrite H. Qed.

(** One iteration of the loop body keeps the invariant, whether it
    ends in [continue], in [break] or at the end of the body. *)
Lemma parser_inv_step done st line st' :
  parser_inv done st ->
  parseLine line st = Next st' \/ parseLine line st = Break st' ->
  parser_inv (done ++ [line]) st'.
Proof.
  intros [Hm Hc Hg] Hstep.
  destruct (data_line line) eqn:Hd.
  - rewrite (parseLine_data _ _ Hd) in Hstep.
    destruct (inDataSection st) eqn:Hs.
    + assert (st' = onSynonym (trim line)
                      (onCommon (trim line) (onName line st))) as ->
        by (destruct Hstep; congruence).
      apply parser_inv_synonym.
      rewrite (onName_sets_name _ _ Hd).
      destruct (sets_name line) as [n|] eqn:Hn.
      * unfold onCommon. rewrite (sets_name_not_common _ _ Hn).
        cbn [andb]. split; cbn.
        -- intros k Hk. apply recorded_by_app; auto.
        -- intros _. exists done, line, []. auto.
        -- congruence.
      * unfold onCommon.
        destruct (startsWith "C=" (trim line)) eqn:HC; cbn [andb].
        2:{ split; auto using recorded_by_app, current_of_snoc; congruence. }
        destruct (truthy (currentScientificName st)) eqn:Ht.
        2:{ split; auto using recorded_by_app, current_of_snoc; congruence. }
        destruct (truthy (trim (substringFrom 2 (trim line)))) eqn:Hv.
        2:{ split; auto using recorded_by_app, current_of_snoc; congruence. }
        assert (records_common line = true) as Hrc
          by (unfold records_common; now rewrite Hd, HC, Hv).
        split; cbn.
        -- intros k Hk.
           destruct (decide (currentScientificName st = k)) as [<-|Hne].
           ++ apply current_of_recorded; auto.
           ++ rewrite lookup_insert_ne in Hk by assumption.
              apply recorded_by_app; auto.
        -- intros _. apply current_of_snoc; auto.
        -- congruence.
    + assert (st' = st) as -> by (destruct Hstep; congruence).
      split; auto using recorded_by_app.
      rewrite (Hg eq_refl). discriminate.
  - destruct (parseLine_skipped line st Hd) as (b & Hcases & Hb).
    pose proof (sets_name_skipped _ Hd) as Hn.
    assert (Hst : st' = st \/
            st' = PState (speciesMap st) (currentScientificName st) b).
    { destruct Hcases as [Hc1|Hc1], Hstep as [Hs1|Hs1]; rewrite Hc1 in Hs1.
      - discriminate.
      - injection Hs1 as <-. now left.
      - injection Hs1 as <-. now right.
      - discriminate. }
    clear Hstep Hcases. destruct Hst as [Hst | Hst]; subst st'.
    + split; auto using recorded_by_app, current_of_snoc.
    + split; cbn; auto using recorded_by_app, current_of_snoc.
      intros Hbf. apply Hg.
      destruct (inDataSection st); [|reflexivity].
      specialize (Hb eq_refl). congruence.
Qed.

Lemma parseLoop_recorded lines done st :
  parser_inv done st ->
  forall k, is_Some (speciesMap (parseLoop lines st) !! k) ->
            recorded_by (done ++ lines) k.
Proof.
  revert done st.
  induction lines as [|line rest IH]; intros done st Hinv k Hk; cbn in Hk.
  - rewrite app_nil_r. now apply (inv_map _ _ Hinv).
  - replace (done ++ line :: rest)%list
      with ((done ++ [line]) ++ rest)%list
      by now rewrite <- app_assoc.
    destruct (parseLine line st) as [st'|st'] eqn:Hstep.
    + eapply IH; [|exact Hk]. eapply parser_inv_step; eauto.
    + apply recorded_by_app.
      eapply (inv_map (done ++ [line]) st'); [|exact Hk].
      eapply parser_inv_step; eauto.
Qed.

(** *** The section bounds *)

(** A line on which the loop breaks hides everything after it. *)
Lemma parseLoop_break pre v post st :
  includes real_header v = false ->
  includes virtual_header v = true ->
  parseLoop (pre ++ v :: post) st = parseLoop pre st.
Proof.
  intros Hr Hv. revert st.
  induction pre as [|l ls IH]; intros st; cbn.
  - unfold parseLine. now rewrite Hr, Hv.
  - destruct (parseLine l st); auto.
Qed.

End ParserFacts.

(** * The parser: where entries come from *)

Section ParserTheorems.

Lemma parseLoop_prefix la rest st :
  inDataSection st = false ->
  Forall (fun l => includes real_header l = false) la ->
  parseLoop (la ++ rest) st =
  if existsb (includes virtual_header) la then st else parseLoop rest st.
Proof.
  intros Hs Ha. induction Ha as [|l ls Hr _ IH]; cbn; [reflexivity|].
  unfold parseLine. rewrite Hr, Hs.
  destruct (includes virtual_header l); auto.
Qed.

Lemma split_nl_line (a b : string) :
  split_nl (a ++ nl ++ b) = (split_nl a ++ split_nl b)%list.
Proof. exact (split_nl_app a b). Qed.

Lemma split_three (body v post : string) :
  split_nl v = [v] ->
  split_nl (body ++ nl ++ v ++ nl ++ post) =
  (split_nl body ++ v :: split_nl post)%list.
Proof.
  intros Hv. rewrite !split_nl_line, Hv. reflexivity.
Qed.

(** What holds for every input text: a key of the parsed map was
    recorded from a [C=] line that comes after a header line from which
    the key was extracted, with no line in between from which a name is
    extracted.  Header lines from which no name is extracted may lie in
    between. *)
Lemma parsed_key_is_recorded (text k : string) :
  is_Some (parseUniProtSpecList text !! k) ->
  recorded_by (split_nl text) k.
Proof.
  intros Hk. change (split_nl text) with ([] ++ split_nl text)%list.
  eapply parseLoop_recorded; [apply parser_inv_initial | exact Hk].
Qed.

Lemma common_is_no_synonym t :
  startsWith "C=" t = true -> startsWith "S=" t = false.
Proof.
  destruct t as [|c r]; [discriminate|].
  change (startsWith "C=" (String c r))
    with (Ascii.eqb "C"%char c && startsWith "=" r).
  change (startsWith "S=" (String c r))
    with (Ascii.eqb "S"%char c && startsWith "=" r).
  destruct (Ascii.eqb_spec "C"%char c) as [<-|]; [reflexivity|discriminate].
Qed.

(** The current name outlives every line from which no name is
    extracted and which is neither a [C=] nor an [S=] line, whatever
    else the line is: the next [C=] line is recorded under it. *)
Lemma common_line_after_unread_line st h c :
  inDataSection st = true ->
  truthy (currentScientificName st) = true ->
  data_line h = true ->
  sets_name h = None ->
  startsWith "C=" (trim h) = false ->
  startsWith "S=" (trim h) = false ->
  records_common c = true ->
  speciesMap (parseLoop [h; c] st) !! currentScientificName st =
    Some (trim (substringFrom 2 (trim c))).
Proof.
  intros Hs Ht Hd Hn HC HS Hc.
  assert (Hh : parseLine h st = Next st).
  { rewrite (parseLine_data _ _ Hd), Hs, (onName_sets_name _ _ Hd), Hn.
    unfold onCommon, onSynonym. now rewrite HC, HS. }
  unfold records_common in Hc.
  apply andb_prop in Hc as [Hc Hv]. apply andb_prop in Hc as [Hdc HCc].
  assert (Hnc : sets_name c = None).
  { destruct (sets_name c) as [n|] eqn:E; [|reflexivity].
    apply sets_name_not_common in E. congruence. }
  cbn [parseLoop]. rewrite Hh.
  rewrite (parseLine_data _ _ Hdc), Hs, (onName_sets_name _ _ Hdc), Hnc.
  unfold onCommon, onSynonym. rewrite HCc, Ht. cbn [andb]. rewrite Hv.
  cbn [currentScientificName speciesMap].
  rewrite (common_is_no_synonym _ HCc). cbn [andb speciesMap].
  apply lookup_insert_eq.
Qed.

(** C5, where the code departs from it.  The claim's own input, a
    record with an [N=] and an [S=] line, gives no entry.  But a record
    with an [N=] line only gets an entry when the header of the next
    record yields no name, be it that the header matches and the name
    has two parenthesised groups ([leak_source]), or that the code is
    shorter than five characters ([short_code_source]): the [C=] line of
    the next record is then stored under the name of the record before
    it.  When the second header is read the entry goes to the second
    record, and an [S=] line in the first record keeps the stray [C=]
    line out. *)
Theorem common_line_goes_to_previous_record :
  (parseUniProtSpecList sample_record !! "Testus exemplus" = None /\
   parseUniProtSpecList (real_header ++ nl ++ sample_record)
     !! "Testus exemplus" = None) /\
  (split_nl leak_source =
     [real_header; "AAAAA V 000001: N=Testus exemplus"; second_header;
      "                C=Other name"; ""] /\
   header_re second_header = true /\
   includes "N=" second_header = true /\
   nMatch second_header = None /\
   map_to_list (parseUniProtSpecList leak_source) =
     [("Testus exemplus", "Other name")]) /\
  (split_nl short_code_source =
     [real_header; "AAAAA V 000001: N=Testus exemplus"; short_code_header;
      "                 C=Pig"; ""] /\
   header_re short_code_header = false /\
   map_to_list (parseUniProtSpecList short_code_source) =
     [("Testus exemplus", "Pig")]) /\
  (nMatch single_group_header = Some "Alter exemplus" /\
   map_to_list (parseUniProtSpecList recognised_source) =
     [("Alter exemplus", "Other name")]) /\
  map_to_list (parseUniProtSpecList guarded_source) = [].
Proof. repeat split; vm_compute; reflexivity. Qed.

(** C6, as the code has it.  A line that holds the virtual-codes header
    and not the real-organism header ends the parse: what follows it is
    never read.  Lines before the first real-organism header add
    nothing: they are skipped, and the result is empty when one of them
    holds the virtual-codes header. *)
Theorem section_bound (a body v post : string)
    (Ha : Forall (fun l => includes real_header l = false) (split_nl a))
    (Hline : split_nl v = [v])
    (Hr : includes real_header v = false)
    (Hv : includes virtual_header v = true) :
  parseUniProtSpecList (body ++ nl ++ v ++ nl ++ post) =
    parseUniProtSpecList body /\
  parseUniProtSpecList (a ++ nl ++ body ++ nl ++ v ++ nl ++ post) =
    if existsb (includes virtual_header) (split_nl a) then ∅
    else parseUniProtSpecList body.
Proof.
  unfold parseUniProtSpecList, parseLines. split.
  - rewrite (split_three _ _ _ Hline). now rewrite parseLoop_break.
  - rewrite split_nl_line.
    rewrite (parseLoop_prefix _ _ Parser.initial eq_refl Ha).
    destruct (existsb (includes virtual_header) (split_nl a)); [reflexivity|].
    rewrite (split_three _ _ _ Hline). now rewrite parseLoop_break.
Qed.

Lemma section_bound_witness :
  Forall (fun l => includes real_header l = false) (split_nl "header text") /\
  split_nl virtual_header = [virtual_header] /\
  includes real_header virtual_header = false /\
  includes virtual_header virtual_header = true /\
  parseUniProtSpecList
    ("header text" ++ nl ++ (real_header ++ nl ++ sample_record) ++ nl ++
     virtual_header ++ nl ++ late_entries) =
  parseUniProtSpecList (real_header ++ nl ++ sample_record).
Proof.
  assert (Ha : Forall (fun l => includes real_header l = false)
                      (split_nl "header text"))
    by (vm_compute; auto).
  assert (Hline : split_nl virtual_header = [virtual_header]) by reflexivity.
  assert (Hr : includes real_header virtual_header = false) by reflexivity.
  assert (Hv : includes virtual_header virtual_header = true) by reflexivity.
  refine (conj Ha (conj Hline (conj Hr (conj Hv _)))).
  exact (proj2 (section_bound "header text"
                  (real_header ++ nl ++ sample_record)
                  virtual_header late_entries Ha Hline Hr Hv)).
Defined.

(** C6 as stated fails: a line that holds both headers is taken for the
    real-organism header, the parse goes on, and a record after that line
    is in the result. *)
Lemma section_bound_counterexample :
  let v := "(1) Real organism codes (2) Virtual codes" in
  let text := real_header ++ nl ++ v ++ nl ++
              "AAAAA V 000001: N=Testus exemplus" ++ nl ++
              "                C=Test" ++ nl in
  split_nl v = [v] /\
  includes virtual_header v = true /\
  parseUniProtSpecList (real_header ++ nl ++ v) = ∅ /\
  parseUniProtSpecList text !! "Testus exemplus" = Some "Test".
Proof. vm_compute. auto. Qed.

End ParserTheorems.

(** * The retry loop *)

Section FetchTheorems.

Import Fetch.

Lemma accepted_iff (r : Response) :
  accepted r = true <->
  (200 <= status r <= 299) \/ (400 <= status r < 500).
Proof. unfold accepted, ok. lia. Qed.

(** An accepted response ends the loop at once: it is returned as it
    is, after this one attempt and without any wait. *)
Lemma accepted_returns_at_once url env maxRetries n attempt lastError log r :
  env attempt = Responds r -> accepted r = true ->
  retryLoop url env maxRetries (S n) attempt lastError log =
  ((log ++ [Attempt attempt])%list, Resolves r).
Proof. intros He Ha. cbn. rewrite He. cbn. now rewrite Ha. Qed.

(** A response that is not accepted is made into an error and the loop
    goes on, after the wait unless this was the last allowed attempt. *)
Lemma rejected_is_retried url env maxRetries n attempt lastError log r :
  env attempt = Responds r -> accepted r = false ->
  retryLoop url env maxRetries (S n) attempt lastError log =
  retryLoop url env maxRetries n (attempt + 1)
    (Some (ApiError ("HTTP " ++ Z_to_string (status r) ++ ": " ++ statusText r)
                    (Some (status r)) (Some url)))
    (backoff maxRetries attempt (log ++ [Attempt attempt])).
Proof. intros He Ha. cbn. rewrite He. cbn. now rewrite Ha. Qed.

(** The first attempt of a call with at least one allowed attempt. *)
Lemma first_response_accepted url env maxRetries r :
  0 < maxRetries -> env 0 = Responds r -> accepted r = true ->
  fetchWithRetry url env maxRetries = ([Attempt 0], Resolves r).
Proof.
  intros Hm He Ha. unfold fetchWithRetry.
  destruct (Z.to_nat maxRetries) eqn:Hn; [lia|].
  now rewrite (accepted_returns_at_once _ _ _ _ _ _ _ r).
Qed.

Lemma retryLoop_never_accepted url env maxRetries :
  never_accepted env ->
  forall iterations attempt lastError log,
    maxRetries = attempt + Z.of_nat iterations ->
    fst (retryLoop url env maxRetries iterations attempt lastError log) =
    (log ++ all_retried attempt iterations)%list.
Proof.
  intros Hnever. induction iterations as [|n IH]; intros attempt lastError log Hm.
  - cbn. now rewrite app_nil_r.
  - assert (Hb : backoff maxRetries attempt (log ++ [Attempt attempt]) =
                 (log ++ [Attempt attempt] ++
                  match n with
                  | O => []
                  | S _ => [Sleep (RETRY_DELAY_MS * 2 ^ attempt)]
                  end)%list).
    { unfold backoff. destruct n.
      - replace (attempt <? maxRetries - 1) with false by lia.
        now rewrite app_nil_r.
      - replace (attempt <? maxRetries - 1) with true by lia.
        now rewrite <- app_assoc. }
    specialize (Hnever attempt).
    cbn [retryLoop]. destruct (env attempt) as [r| e |]; cbn.
    + rewrite Hnever, Hb, IH by lia. rewrite <- !app_assoc.
      destruct n; reflexivity.
    + rewrite Hb, IH by lia. rewrite <- !app_assoc. destruct n; reflexivity.
    + rewrite Hb, IH by lia. rewrite <- !app_assoc. destruct n; reflexivity.
Qed.

(** C2. With three allowed attempts and an endpoint that answers 503
    every time, there are exactly three attempts, one after the other,
    with a wait of 1000 ms after the first and 2000 ms after the second
    and none after the third, and the error thrown is made from the
    third response and carries its status.  Whatever the number of
    allowed attempts, the wait after attempt [k] is
    [RETRY_DELAY_MS * 2 ^ k]. *)
Theorem retry_ceiling_503 (url : string) (resp : Z -> Response)
    (H503 : forall k, status (resp k) = 503) :
  fetchWithRetry url (fun k => Responds (resp k)) 3 =
    ([Attempt 0; Sleep 1000; Attempt 1; Sleep 2000; Attempt 2],
     Rejects (ApiError ("HTTP 503: " ++ statusText (resp 2))
                       (Some 503) (Some url))) /\
  forall maxRetries,
    fst (fetchWithRetry url (fun k => Responds (resp k)) maxRetries) =
    all_retried 0 (Z.to_nat maxRetries).
Proof.
  assert (Hacc : forall k, accepted (resp k) = false)
    by (intros k; unfold accepted, ok; now rewrite H503).
  split.
  - unfold fetchWithRetry.
    change (Z.to_nat 3) with 3%nat. cbn [retryLoop fetchWithTimeout].
    rewrite !Hacc, !H503. reflexivity.
  - intros maxRetries. unfold fetchWithRetry.
    destruct (Z.to_nat maxRetries) eqn:Hn; [reflexivity|].
    rewrite <- Hn.
    apply (retryLoop_never_accepted url _ maxRetries); [|lia].
    intros k. apply Hacc.
Qed.

Lemma retry_ceiling_503_witness :
  (forall k : Z, status unavailable = 503) /\
  fetchWithRetry "/taxa" (fun _ => Responds unavailable) 3 =
    ([Attempt 0; Sleep 1000; Attempt 1; Sleep 2000; Attempt 2],
     Rejects (ApiError "HTTP 503: Service Unavailable"
                       (Some 503) (Some "/taxa"))).
Proof.
  assert (H : forall k : Z, status unavailable = 503) by reflexivity.
  split; [exact H|].
  exact (proj1 (retry_ceiling_503 "/taxa" (fun _ => unavailable) H)).
Defined.

(** C3, where the code departs from it.  A 404 is returned at once,
    but a response whose status is neither 2xx nor 4xx is retried even
    when the status is below 500: an endpoint that answers 304 is asked
    three times, with both waits, and the call throws. *)
Theorem redirect_status_is_retried :
  fetchWithRetry "/taxa" (fun _ => Responds not_found) 3 =
    ([Attempt 0], Resolves not_found) /\
  status not_modified < 500 /\
  fetchWithRetry "/taxa" (fun _ => Responds not_modified) 3 =
    ([Attempt 0; Sleep 1000; Attempt 1; Sleep 2000; Attempt 2],
     Rejects (ApiError "HTTP 304: Not Modified" (Some 304) (Some "/taxa"))).
Proof. repeat split. Qed.

End FetchTheorems.

(** * The TTL cache *)

Section CacheTheorems.

Import Cache.

Context {T : Type} (P : platform T).

Lemma setCachedData_written key (v : T) ttl t0 s store :
  written P (Envelope (Some v) (Some t0) ttl) s key store ->
  setCachedData P key v ttl t0 store = <[key := s]> store.
Proof.
  intros (Hs & Hfit & _ & _). unfold setCachedData. now rewrite Hs, Hfit.
Qed.

(** Reading a key whose string parses to [data]. *)
Lemma getCachedData_parsed key now store s data :
  store !! key = Some s -> truthy s = true -> JSON_parse P s = Parsed data ->
  getCachedData P key now store =
  match has_timestamp data with
  | Some ts =>
      if exceeds (now - ts) (or_Infinity (_ttl data))
      then (delete key store, None)
      else (store, value data)
  | None => (store, value data)
  end.
Proof.
  intros Hk Ht Hp. unfold getCachedData, getCachedData_try.
  rewrite Hk, Ht, Hp. cbn [negb].
  destruct (has_timestamp data); [|reflexivity].
  destruct (exceeds _ _); reflexivity.
Qed.

Lemma getCachedData_missing key now store :
  store !! key = None -> getCachedData P key now store = (store, None).
Proof.
  intros Hk. unfold getCachedData, getCachedData_try. now rewrite Hk.
Qed.

(** A string that does not parse: the [SyntaxError] is caught. *)
Lemma getCachedData_malformed key now store s :
  store !! key = Some s -> JSON_parse P s = ThrowsSyntaxError ->
  getCachedData_try P key now store = (store, Throw) \/ truthy s = false.
Proof.
  intros Hk Hp. unfold getCachedData_try. rewrite Hk, Hp.
  destruct (truthy s); auto.
Qed.

End CacheTheorems.

(** C4, as the code has it.  An entry written by [setCachedData] at a
    non-zero clock reading: with a non-zero [ttl], [getCachedData] gives
    the stored value while [now - timestamp <= ttl] and, once
    [now - timestamp > ttl], gives no value and removes the entry; with
    no [ttl], or a zero one, the entry never expires.  A missing entry
    and one that does not parse give no value, the store is left as it
    is and nothing is thrown. *)
Theorem ttl_cache_contract {T : Type} (P : Cache.platform T)
    (key : string) (v : T) (ttl : option Z) (s : string) (t0 now : Z)
    (store : gmap string string)
    (Ht0 : t0 <> 0)
    (Hw : Cache.written P (Cache.Envelope (Some v) (Some t0) ttl) s key store) :
  let store' := Cache.setCachedData P key v ttl t0 store in
  store' !! key = Some s /\
  Cache.getCachedData P key now store' =
    match ttl with
    | Some t =>
        if (t =? 0) || (now - t0 <=? t) then (store', Some v)
        else (delete key store', None)
    | None => (store', Some v)
    end /\
  (forall st, st !! key = None ->
              Cache.getCachedData P key now st = (st, None)) /\
  (forall st c, st !! key = Some c ->
                Cache.JSON_parse P c = Cache.ThrowsSyntaxError ->
                Cache.getCachedData P key now st = (st, None)).
Proof.
  intros store'. subst store'.
  rewrite (setCachedData_written P _ _ _ _ _ _ Hw).
  destruct Hw as (_ & _ & Hs & Hp).
  split; [apply lookup_insert_eq|]. split; [|split].
  - rewrite (getCachedData_parsed P key now _ s _
               (lookup_insert_eq _ _ _) Hs Hp).
    unfold Cache.has_timestamp. cbn.
    replace (t0 =? 0) with false by lia.
    destruct ttl as [t|]; cbn; [|reflexivity].
    destruct (t =? 0) eqn:Hz; cbn; [reflexivity|].
    destruct (now - t0 <=? t) eqn:Hle.
    + replace (t <? now - t0) with false by lia. reflexivity.
    + replace (t <? now - t0) with true by lia. reflexivity.
  - intros st Hk. now apply getCachedData_missing.
  - intros st c Hk Hc. unfold Cache.getCachedData.
    destruct (getCachedData_malformed P key now st c Hk Hc) as [-> | Hf];
      [reflexivity|].
    unfold Cache.getCachedData_try. now rewrite Hk, Hf.
Qed.

Lemma ttl_cache_contract_witness :
  let P := Cache.short_ttl_platform in
  let s := "{value:Gray wolf,_timestamp:1000,_ttl:100}" in
  let store' := Cache.setCachedData P "k" "Gray wolf" (Some 100) 1000 ∅ in
  1000 <> 0 /\
  Cache.written P Cache.short_ttl_entry s "k" ∅ /\
  Cache.getCachedData P "k" 1100 store' = (store', Some "Gray wolf") /\
  Cache.getCachedData P "k" 1101 store' = (delete "k" store', None) /\
  (∅ : gmap string string) !! "k" = None /\
  Cache.getCachedData P "k" 1101 ∅ = (∅, None) /\
  ({[ "k" := "{" ]} : gmap string string) !! "k" = Some "{" /\
  Cache.JSON_parse P "{" = Cache.ThrowsSyntaxError /\
  Cache.getCachedData P "k" 1101 {[ "k" := "{" ]} = ({[ "k" := "{" ]}, None).
Proof.
  intros P s store'.
  assert (Ht0 : 1000 <> 0) by lia.
  assert (Hw : Cache.written P Cache.short_ttl_entry s "k" ∅)
    by (repeat split).
  assert (Hk : (∅ : gmap string string) !! "k" = None) by reflexivity.
  assert (Hm : ({[ "k" := "{" ]} : gmap string string) !! "k" = Some "{")
    by reflexivity.
  assert (Hp : Cache.JSON_parse P "{" = Cache.ThrowsSyntaxError)
    by reflexivity.
  pose proof (ttl_cache_contract P "k" "Gray wolf" (Some 100) s 1000 1100 ∅
                Ht0 Hw) as (_ & Hfresh & _).
  pose proof (ttl_cache_contract P "k" "Gray wolf" (Some 100) s 1000 1101 ∅
                Ht0 Hw) as (_ & Hstale & Hmiss & Hbad).
  refine (conj Ht0 (conj Hw (conj Hfresh (conj Hstale (conj Hk
            (conj (Hmiss _ Hk) (conj Hm (conj Hp (Hbad _ _ Hm Hp))))))))).
Defined.

(** C4 as stated fails for a zero [ttl]: the entry is older than its
    [ttl], and [getCachedData] still gives the value and leaves the
    entry in the store. *)
Lemma ttl_cache_contract_counterexample :
  let P := Cache.zero_ttl_platform in
  let store' := Cache.setCachedData P "k" "Gray wolf" (Some 0) 1000 ∅ in
  Cache.written P Cache.zero_ttl_entry
                "{value:Gray wolf,_timestamp:1000,_ttl:0}" "k" ∅ /\
  2000 - 1000 > 0 /\
  Cache.getCachedData P "k" 2000 store' = (store', Some "Gray wolf") /\
  is_Some (store' !! "k").
Proof.
  cbv zeta. repeat split; try reflexivity. eexists. reflexivity.
Qed.

(** C10. An entry stored with a [ttl] of zero, or with none, is read
    back at every later (or earlier) clock reading: at read time the
    falsy [_ttl] is replaced by infinity, which no age exceeds, and the
    entry stays in the store. *)
Theorem falsy_ttl_never_expires {T : Type} (P : Cache.platform T)
    (key : string) (v : T) (ttl : option Z) (s : string) (t0 now : Z)
    (store : gmap string string)
    (Httl : ttl = Some 0 \/ ttl = None)
    (Hw : Cache.written P (Cache.Envelope (Some v) (Some t0) ttl) s key store) :
  let store' := Cache.setCachedData P key v ttl t0 store in
  Cache.or_Infinity ttl = None /\
  (forall age, Cache.exceeds age (Cache.or_Infinity ttl) = false) /\
  Cache.getCachedData P key now store' = (store', Some v) /\
  store' !! key = Some s.
Proof.
  intros store'. subst store'.
  rewrite (setCachedData_written P _ _ _ _ _ _ Hw).
  destruct Hw as (_ & _ & Hs & Hp).
  assert (Hinf : Cache.or_Infinity ttl = None)
    by (destruct Httl as [-> | ->]; reflexivity).
  split; [exact Hinf|]. split; [|split; [|apply lookup_insert_eq]].
  - intros age. now rewrite Hinf.
  - rewrite (getCachedData_parsed P key now _ s _
               (lookup_insert_eq _ _ _) Hs Hp).
    cbn [Cache._ttl Cache.value]. rewrite Hinf.
    destruct (Cache.has_timestamp _); reflexivity.
Qed.

Lemma falsy_ttl_never_expires_witness :
  let P := Cache.zero_ttl_platform in
  let s := "{value:Gray wolf,_timestamp:1000,_ttl:0}" in
  let store' := Cache.setCachedData P "k" "Gray wolf" (Some 0) 1000 ∅ in
  (Some 0 = Some 0 \/ Some 0 = @None Z) /\
  Cache.written P Cache.zero_ttl_entry s "k" ∅ /\
  Cache.getCachedData P "k" 999999999 store' = (store', Some "Gray wolf").
Proof.
  intros P s store'.
  assert (Httl : Some 0 = Some 0 \/ Some 0 = @None Z) by (left; reflexivity).
  assert (Hw : Cache.written P Cache.zero_ttl_entry s "k" ∅)
    by (repeat split).
  refine (conj Httl (conj Hw _)).
  exact (proj1 (proj2 (proj2
    (falsy_ttl_never_expires P "k" "Gray wolf" (Some 0) s 1000 999999999 ∅
       Httl Hw)))).
Defined.

(** * The loader *)

Section LoaderTheorems.

Import Fetch Cache Species.

Context (P : platform (list (string * string))) (url : string).

(** Every failure the [try] block guards against ends it in a throw,
    with the store untouched. *)
Lemma loadFromServer_fails n now store :
  load_fails n -> loadFromServer P url n now store = (store, Throw).
Proof.
  unfold load_fails, loadFromServer.
  destruct n as [response| e |]; cbn; auto.
  intros [Hok | Hbody]; [now rewrite Hok|].
  destruct (ok response); cbn; [|reflexivity].
  destruct (body response) as [text|]; [|reflexivity].
  destruct Hbody as [-> | [Hlen | Hparse]]; [reflexivity | |].
  - replace (Z.of_nat (String.length text) <? 1000) with true by lia.
    now rewrite orb_true_r.
  - destruct (negb (truthy text) || _); [reflexivity|].
    rewrite Hparse, map_size_empty.
    rewrite bool_decide_eq_true_2; reflexivity.
Qed.

(** A fetched source that passes every check is parsed, written to the
    cache with [UNIPROT_CACHE_TTL], and returned. *)
Lemma loadFromServer_succeeds response text now store :
  ok response = true -> body response = Some text ->
  (1000 <= String.length text)%nat ->
  parseUniProtSpecList text <> ∅ ->
  loadFromServer P url (Responds response) now store =
  (setCachedData P cache_key (map_to_list (parseUniProtSpecList text))
                 (Some UNIPROT_CACHE_TTL) now store,
   Return (parseUniProtSpecList text)).
Proof.
  intros Hok Hbody Hlen Hparse. unfold loadFromServer. cbn.
  rewrite Hok, Hbody. cbn.
  assert (truthy text = true) as -> by (destruct text; [cbn in Hlen; lia | reflexivity]).
  replace (Z.of_nat (String.length text) <? 1000) with false by lia.
  cbn. rewrite bool_decide_eq_false_2; [reflexivity|].
  intros Hz. now apply map_size_empty_iff in Hz.
Qed.

End LoaderTheorems.

(** C7. [loadUniProtSpeciesList] always returns a map and never
    throws.  When the cache gives nothing and the load fails (the fetch
    rejects or times out, the response is not ok, its text cannot be
    read, is empty or shorter than 1000 characters, or the parse gives no
    entry), the map returned is empty and the store is left as the cache
    read left it. *)
Theorem loader_never_throws (P : Cache.platform (list (string * string)))
    (url : string) (now_read now_write : Z) (n : Fetch.net)
    (store : gmap string string) :
  (exists store' m,
     Species.loadUniProtSpeciesList P url now_read now_write n store =
     (store', Cache.Return m)) /\
  ((Cache.getCachedData P Species.cache_key now_read store).2 = None ->
   Species.load_fails n ->
   Species.loadUniProtSpeciesList P url now_read now_write n store =
   ((Cache.getCachedData P Species.cache_key now_read store).1,
    Cache.Return ∅)).
Proof.
  unfold Species.loadUniProtSpeciesList. split.
  - destruct (Cache.getCachedData P Species.cache_key now_read store)
      as [store1 [cached|]]; [eauto|].
    destruct (Species.loadFromServer P url n now_write store1)
      as [store2 [m|]]; eauto.
  - destruct (Cache.getCachedData P Species.cache_key now_read store)
      as [store1 cached]; cbn.
    intros -> Hfail. now rewrite loadFromServer_fails.
Qed.

Lemma loader_never_throws_witness :
  let P := Species.rendering_platform (Cache.Envelope None None None) in
  (Cache.getCachedData P Species.cache_key 0 ∅).2 = None /\
  Species.load_fails (Fetch.Responds Fetch.unavailable) /\
  Species.load_fails Fetch.Hangs /\
  Species.loadUniProtSpeciesList P "/speclist.txt" 0 0
    (Fetch.Responds Fetch.unavailable) ∅ = (∅, Cache.Return ∅) /\
  Species.loadUniProtSpeciesList P "/speclist.txt" 0 0 Fetch.Hangs ∅ =
    (∅, Cache.Return ∅).
Proof.
  intros P.
  assert (Hmiss : (Cache.getCachedData P Species.cache_key 0 ∅).2 = None)
    by reflexivity.
  assert (H503 : Species.load_fails (Fetch.Responds Fetch.unavailable))
    by (left; reflexivity).
  assert (Hhang : Species.load_fails Fetch.Hangs) by exact I.
  refine (conj Hmiss (conj H503 (conj Hhang (conj _ _)))).
  - exact (proj2 (loader_never_throws P "/speclist.txt" 0 0
                    (Fetch.Responds Fetch.unavailable) ∅) Hmiss H503).
  - exact (proj2 (loader_never_throws P "/speclist.txt" 0 0 Fetch.Hangs ∅)
                 Hmiss Hhang).
Defined.

(** C8, where the code departs from it.  A successful load of
    [sample_source] at clock reading 5000 returns the parsed map and
    writes it to the cache, but with a [_ttl] of 1 800 000 000 ms, which
    is 500 hours and not 24: the entry is still served 20 days later. *)
Theorem cache_ttl_is_500_hours :
  let data := Cache.Envelope (Some Species.sample_entries) (Some 5000)
                             (Some Species.UNIPROT_CACHE_TTL) in
  let P := Species.rendering_platform data in
  let loaded := Species.loadUniProtSpeciesList P "/speclist.txt" 0 5000
                  (Fetch.Responds Species.sample_response) ∅ in
  let day := 24 * 60 * 60 * 1000 in
  Species.UNIPROT_CACHE_TTL = 1800000000 /\
  Species.UNIPROT_CACHE_TTL = 500 * (60 * 60 * 1000) /\
  day = 86400000 /\
  loaded.2 = Cache.Return (Species.Map_of Species.sample_entries) /\
  loaded.1 !! Species.cache_key = Some "{_timestamp:5000,_ttl:1800000000}" /\
  Cache.JSON_parse P "{_timestamp:5000,_ttl:1800000000}" = Cache.Parsed data /\
  Cache.getCachedData P Species.cache_key (5000 + 20 * day) loaded.1 =
    (loaded.1, Some Species.sample_entries).
Proof.
  cbv zeta. repeat split; vm_compute; reflexivity.
Qed.

(** C1, where the code departs from it.  The parser keeps the case of
    the scientific name, and the fallback looks the lower-cased name up
    as an exact key: with the one key [Canis lupus] in the map,
    [getCommonName("canis lupus")] gives the empty string and
    [getCommonNames] leaves the name out, while the exact name is
    found. *)
Theorem lowercase_fallback_misses :
  let loaded := Species.run [Species.Invoke Species.preloadUniProtData;
                             Species.Settle 0 Species.wolf_map;
                             Species.Resume 0] Species.initial in
  parseUniProtSpecList Species.wolf_source = Species.wolf_map /\
  Species.wolf_map !! "canis lupus" = None /\
  Species.lookupName Species.wolf_map "Canis lupus" = "Gray wolf" /\
  Species.lookupName Species.wolf_map "canis lupus" = "" /\
  Species.lookupNames Species.wolf_map ["canis lupus"; "Canis lupus"] =
    {[ "Canis lupus" := "Gray wolf" ]} /\
  Species.speciesCache loaded = Some Species.wolf_map /\
  Species.tasks (Species.invoke (Species.getCommonName "canis lupus") loaded)
    !! 1%nat =
    Some (Species.Done (Species.getCommonName "canis lupus") (Species.Name "")).
Proof.
  cbv zeta. repeat split; vm_compute; reflexivity.
Qed.

(** * Single flight *)

Section SingleFlight.

Import Species.

(** No task at an index of the empty list. *)
Ltac no_task :=
  let H := fresh in
  intros H; rewrite ?lookup_nil in H; discriminate H.

Lemma single_flight_initial : single_flight initial.
Proof.
  split; cbn; auto; try discriminate; intros i *; no_task.
Qed.

Lemma promises_one w x :
  single_flight w -> promises w !! 0%nat = Some x -> promises w = [x].
Proof.
  intros Hsf Hx. pose proof (sf_loads w Hsf) as Hl. unfold loads in Hl.
  destruct (promises w) as [|y [|z l]]; cbn in *;
    [discriminate | congruence | lia].
Qed.

Lemma promises_lookup_zero w p x :
  single_flight w -> promises w !! p = Some x -> p = 0%nat.
Proof.
  intros Hsf Hx. pose proof (sf_loads w Hsf) as Hl.
  apply lookup_lt_Some in Hx. unfold loads in Hl. lia.
Qed.

Lemma single_flight_spawn_done w c r :
  single_flight w ->
  (speciesCache w = None -> cachePromise w <> None) ->
  match promises w with
  | [Some m] => r = answer m c
  | _ => c = preloadUniProtData /\ r = Void
  end ->
  single_flight (spawn (Done c r) w).
Proof.
  intros [Hl Hp Hi Hc Hw Hd] Hbusy Hr. split; cbn; auto.
  - intros Hs Hn. now destruct (Hbusy Hs).
  - intros i c' p o [[_ H] | [_ H]]%lookup_snoc_Some; [eauto | discriminate].
  - intros i c' r' [[_ H] | [_ H]]%lookup_snoc_Some; [exact (Hd _ _ _ H)|].
    now inversion H; subst.
Qed.

Lemma single_flight_invoke w c :
  single_flight w -> single_flight (invoke c w).
Proof.
  intros Hsf.
  assert (Hstart : speciesCache w = None -> cachePromise w = None ->
                   single_flight (startLoad c w)).
  { intros Hs Hn. destruct (sf_idle w Hsf Hs Hn) as [Hps Hts].
    unfold startLoad. rewrite Hps, Hts, Hs. cbn.
    split; cbn; auto; try discriminate.
    - intros p [= <-]. auto.
    - intros [|i] c' p o; cbn; [|no_task].
      intros [= _ <- _]. auto.
    - intros [|i] c' r; cbn; no_task. }
  assert (Hhit : forall m, speciesCache w = Some m ->
                           single_flight (spawn (Done c (answer m c)) w)).
  { intros m Hm. apply single_flight_spawn_done; auto.
    - congruence.
    - now rewrite (sf_cache w Hsf m Hm). }
  assert (Hwait : forall p, speciesCache w = None -> cachePromise w = Some p ->
                            single_flight (spawn (Awaiting c p false) w)).
  { intros p Hs Hp. destruct Hsf as [Hl Hpr Hi Hc Hw Hd]. split; cbn; auto.
    - congruence.
    - intros i c' p' o [[_ H] | [_ H]]%lookup_snoc_Some; [eauto|].
      inversion H; subst. eauto.
    - intros i c' r [[_ H] | [_ H]]%lookup_snoc_Some;
        [exact (Hd _ _ _ H) | discriminate]. }
  assert (Hvoid : (speciesCache w = None -> cachePromise w <> None) ->
                  single_flight (spawn (Done preloadUniProtData Void) w)).
  { intros Hbusy. apply single_flight_spawn_done; auto.
    destruct (promises w) as [|[m|] [|? ?]]; auto. }
  unfold invoke.
  destruct c; destruct (speciesCache w) as [m|] eqn:Hs;
    destruct (cachePromise w) as [p|] eqn:Hp; auto;
    apply Hvoid; congruence.
Qed.

Lemma single_flight_settle w p m :
  single_flight w -> single_flight (settle p m w).
Proof.
  intros Hsf. unfold settle.
  destruct (promises w !! p) as [[m'|]|] eqn:Hpp; auto.
  pose proof (promises_lookup_zero w p _ Hsf Hpp) as ->.
  pose proof (promises_one w _ Hsf Hpp) as Hps.
  destruct Hsf as [Hl Hpr Hi Hc Hw Hd].
  unfold loads in *. rewrite Hps in *. split; cbn; auto.
  - intros Hs Hn. destruct (Hi Hs Hn). discriminate.
  - intros m' Hm'. specialize (Hc m' Hm'). discriminate.
  - intros i c r Hr. destruct (Hd i c r Hr) as [-> ->]. reflexivity.
Qed.

Lemma single_flight_resume w i :
  single_flight w -> single_flight (resume i w).
Proof.
  intros Hsf. unfold resume.
  destruct (tasks w !! i) as [[c p o| c r]|] eqn:Hti; auto.
  destruct (promises w !! p) as [[m|]|] eqn:Hpp; auto.
  pose proof (promises_lookup_zero w p _ Hsf Hpp) as ->.
  pose proof (promises_one w _ Hsf Hpp) as Hps.
  pose proof (lookup_lt_Some _ _ _ Hti) as Hlt.
  destruct Hsf as [Hl Hpr Hi Hc Hw Hd].
  unfold loads in *. rewrite Hps in *. split; cbn; auto; try discriminate.
  - destruct o; [discriminate | auto].
  - congruence.
  - intros j c' p' o'. destruct (decide (i = j)) as [<-|Hne].
    + rewrite list_lookup_insert_eq by assumption. discriminate.
    + rewrite list_lookup_insert_ne by assumption. eauto.
  - intros j c' r. destruct (decide (i = j)) as [<-|Hne].
    + rewrite list_lookup_insert_eq by assumption. now intros [= <- <-].
    + rewrite list_lookup_insert_ne by assumption. apply Hd.
Qed.

Lemma single_flight_step w a : single_flight w -> single_flight (step w a).
Proof.
  destruct a; cbn;
    auto using single_flight_invoke, single_flight_settle,
               single_flight_resume.
Qed.

Lemma single_flight_run schedule w :
  single_flight w -> single_flight (run schedule w).
Proof.
  revert w. induction schedule as [|a l IH]; intros w Hw; cbn; [exact Hw|].
  apply IH. now apply single_flight_step.
Qed.



Lemma run_app l1 l2 w : run (l1 ++ l2) w = run l2 (run l1 w).
Proof. unfold run. apply fold_left_app. Qed.








End SingleFlight.



(** * More on the retry loop *)

Section RetryTheorems.

Import Fetch Retry.

Lemma all_retried_snoc attempt k :
  all_retried attempt (S (S k)) =
  Attempt attempt :: Sleep (RETRY_DELAY_MS * 2 ^ attempt) ::
  all_retried (attempt + 1) (S k).
Proof. reflexivity. Qed.

(** The loop from any pass on: it makes [k] further attempts, at least
    one if a pass is left, waits between them and not after the last. *)
Lemma retryLoop_shape url env maxRetries :
  forall iterations attempt lastError log,
    maxRetries = attempt + Z.of_nat iterations ->
    exists k : nat,
      (k <= iterations)%nat /\ (iterations <> 0%nat -> k <> 0%nat) /\
      fst (retryLoop url env maxRetries iterations attempt lastError log) =
        (log ++ all_retried attempt k)%list /\
      match snd (retryLoop url env maxRetries iterations attempt lastError log)
      with
      | Rejects _ => k = iterations
      | Resolves r =>
          k <> 0%nat /\
          env (attempt + Z.of_nat k - 1) = Responds r /\ accepted r = true
      end.
Proof.
  induction iterations as [|n IH]; intros attempt lastError log Hm.
  - exists 0%nat. cbn. rewrite app_nil_r. auto.
  - assert (Hb : backoff maxRetries attempt (log ++ [Attempt attempt]) =
                 (log ++ [Attempt attempt] ++
                  match n with
                  | O => []
                  | S _ => [Sleep (RETRY_DELAY_MS * 2 ^ attempt)]
                  end)%list).
    { unfold backoff. destruct n.
      - replace (attempt <? maxRetries - 1) with false by lia.
        now rewrite app_nil_r.
      - replace (attempt <? maxRetries - 1) with true by lia.
        now rewrite <- app_assoc. }
    assert (Hnext : forall e,
      exists k : nat,
        (k <= S n)%nat /\ (S n <> 0%nat -> k <> 0%nat) /\
        fst (retryLoop url env maxRetries n (attempt + 1) (Some e)
               (backoff maxRetries attempt (log ++ [Attempt attempt]))) =
          (log ++ all_retried attempt k)%list /\
        match snd (retryLoop url env maxRetries n (attempt + 1) (Some e)
               (backoff maxRetries attempt (log ++ [Attempt attempt]))) with
        | Rejects _ => k = S n
        | Resolves r =>
            k <> 0%nat /\
            env (attempt + Z.of_nat k - 1) = Responds r /\ accepted r = true
        end).
    { intros e.
      destruct (IH (attempt + 1) (Some e)
                   (backoff maxRetries attempt (log ++ [Attempt attempt])))
        as (k & Hk & Hk0 & Hlog & Hres); [lia|].
      exists (S k). split; [lia|]. split; [discriminate|]. split.
      - rewrite Hlog, Hb, <- !app_assoc. f_equal.
        destruct n as [|n'].
        + assert (k = 0%nat) as -> by lia. reflexivity.
        + destruct k as [|k']; [now destruct Hk0|]. reflexivity.
      - destruct (snd (retryLoop _ _ _ _ _ _ _)) as [r|e'].
        + destruct Hres as (_ & Henv & Hacc). repeat split; auto.
          rewrite <- Henv. f_equal. lia.
        + now f_equal. }
    cbn [retryLoop].
    destruct (env attempt) as [r| e |] eqn:He; cbn [fetchWithTimeout].
    + destruct (accepted r) eqn:Ha; [|apply Hnext].
      exists 1%nat. cbn. repeat split; auto; try lia.
      rewrite <- He. f_equal. lia.
    + apply Hnext.
    + apply Hnext.
Qed.

(** What [fetchWithRetry] does, whatever the network does. *)
Lemma retry_log_shape_aux (url : string) (env : Z -> net) (maxRetries : Z) :
  exists k : nat,
    (k <= Z.to_nat maxRetries)%nat /\
    fst (fetchWithRetry url env maxRetries) = all_retried 0 k /\
    match snd (fetchWithRetry url env maxRetries) with
    | Rejects _ => k = Z.to_nat maxRetries
    | Resolves r =>
        k <> 0%nat /\ env (Z.of_nat k - 1) = Responds r /\ accepted r = true
    end.
Proof.
  unfold fetchWithRetry.
  destruct (Z.to_nat maxRetries) as [|n] eqn:Hn.
  - exists 0%nat. cbn. auto.
  - destruct (retryLoop_shape url env (Z.of_nat (S n)) (S n) 0 None [])
      as (k & Hk & _ & Hlog & Hres); [lia|].
    exists k. replace maxRetries with (Z.of_nat (S n)) by lia. auto.
Qed.

(** X1. Whatever the network does, the attempts of [fetchWithRetry]
    are numbered 0, 1, 2, ... and are at most [maxRetries]; there is a
    wait of [RETRY_DELAY_MS * 2 ^ k] between attempt [k] and the next and
    none after the last.  The call throws only after all allowed
    attempts, and it never returns a response that is not 2xx or 4xx:
    what it returns is the response of its last attempt. *)
Theorem retry_log_shape (url : string) (env : Z -> net) (maxRetries : Z) :
  exists k : nat,
    (k <= Z.to_nat maxRetries)%nat /\
    fst (fetchWithRetry url env maxRetries) = all_retried 0 k /\
    match snd (fetchWithRetry url env maxRetries) with
    | Rejects _ => k = Z.to_nat maxRetries
    | Resolves r =>
        k <> 0%nat /\ env (Z.of_nat k - 1) = Responds r /\
        ((200 <= status r <= 299) \/ (400 <= status r < 500))
    end.
Proof.
  unfold fetchWithRetry.
  destruct (Z.to_nat maxRetries) as [|n] eqn:Hn.
  - exists 0%nat. cbn. auto.
  - destruct (retryLoop_shape url env (Z.of_nat (S n)) (S n) 0 None [])
      as (k & Hk & _ & Hlog & Hres); [lia|].
    exists k.
    replace maxRetries with (Z.of_nat (S n)) by lia.
    split; [exact Hk|]. split; [exact Hlog|].
    destruct (snd (retryLoop _ _ _ _ _ _ _)) as [r|e]; [|exact Hres].
    destruct Hres as (Hk0 & Henv & Hacc). repeat split; auto.
    now apply accepted_iff.
Qed.

Lemma backoff_log maxRetries attempt n log :
  maxRetries = attempt + Z.of_nat (S n) ->
  backoff maxRetries attempt (log ++ [Attempt attempt]) =
  (log ++ [Attempt attempt] ++
   match n with
   | O => []
   | S _ => [Sleep (RETRY_DELAY_MS * 2 ^ attempt)]
   end)%list.
Proof.
  intros Hm. unfold backoff. destruct n.
  - replace (attempt <? maxRetries - 1) with false by lia.
    now rewrite app_nil_r.
  - replace (attempt <? maxRetries - 1) with true by lia.
    now rewrite <- app_assoc.
Qed.

(** One pass of the loop on an attempt that is not accepted. *)
Lemma retryLoop_retried url env maxRetries n attempt lastError log :
  retried (env attempt) = true ->
  retryLoop url env maxRetries (S n) attempt lastError log =
  retryLoop url env maxRetries n (attempt + 1)
            (Some (failure_of url (env attempt)))
            (backoff maxRetries attempt (log ++ [Attempt attempt])).
Proof.
  intros Hr. cbn [retryLoop]. unfold failure_of.
  destruct (env attempt) as [r| e |]; cbn [fetchWithTimeout]; try reflexivity.
  cbn in Hr. apply negb_true_iff in Hr. now rewrite Hr.
Qed.

Lemma retryLoop_exhausted url env maxRetries :
  forall iterations attempt lastError log,
    maxRetries = attempt + Z.of_nat iterations ->
    (forall k, attempt <= k < maxRetries -> retried (env k) = true) ->
    retryLoop url env maxRetries iterations attempt lastError log =
    ((log ++ all_retried attempt iterations)%list,
     Rejects (match iterations with
              | O => default (ApiError "Unknown error" None (Some url))
                             lastError
              | S _ => failure_of url (env (maxRetries - 1))
              end)).
Proof.
  induction iterations as [|n IH]; intros attempt lastError log Hm Hall.
  - cbn. now rewrite app_nil_r.
  - rewrite retryLoop_retried by (apply Hall; lia).
    rewrite IH by (try lia; intros k Hk; apply Hall; lia).
    rewrite (backoff_log maxRetries attempt n) by assumption.
    rewrite <- !app_assoc. destruct n as [|n'].
    + replace (maxRetries - 1) with attempt by lia. reflexivity.
    + reflexivity.
Qed.

Lemma retryLoop_recovers url env maxRetries r :
  forall failures iterations attempt lastError log,
    (failures < iterations)%nat ->
    maxRetries = attempt + Z.of_nat iterations ->
    (forall k, attempt <= k < attempt + Z.of_nat failures ->
               retried (env k) = true) ->
    env (attempt + Z.of_nat failures) = Responds r ->
    accepted r = true ->
    retryLoop url env maxRetries iterations attempt lastError log =
    ((log ++ all_retried attempt (S failures))%list, Resolves r).
Proof.
  induction failures as [|f IH];
    intros iterations attempt lastError log Hlt Hm Hfail He Ha;
    (destruct iterations as [|n]; [lia|]).
  - rewrite Z.add_0_r in He.
    now rewrite (accepted_returns_at_once _ _ _ _ _ _ _ r).
  - rewrite retryLoop_retried by (apply Hfail; lia).
    rewrite (IH n (attempt + 1)); try lia.
    + rewrite (backoff_log maxRetries attempt n) by assumption.
      rewrite <- !app_assoc. destruct n as [|n']; [lia | reflexivity].
    + intros k Hk. apply Hfail. lia.
    + rewrite <- He. f_equal. lia.
    + exact Ha.
Qed.

(** X2. When every allowed attempt fails (it throws, times out, or its
    response is neither 2xx nor 4xx), [fetchWithRetry] makes all
    [maxRetries] attempts and throws the failure of the last one: the
    error thrown by that attempt, or the [ApiError] made from its
    response. *)
Theorem retry_throws_last_failure (url : string) (env : Z -> net)
    (maxRetries : Z) (Hn : 0 < maxRetries)
    (Hall : forall k, 0 <= k < maxRetries -> retried (env k) = true) :
  fetchWithRetry url env maxRetries =
  (all_retried 0 (Z.to_nat maxRetries),
   Rejects (failure_of url (env (maxRetries - 1)))).
Proof.
  unfold fetchWithRetry.
  rewrite (retryLoop_exhausted url env maxRetries) by (try lia; exact Hall).
  destruct (Z.to_nat maxRetries) eqn:E; [lia | reflexivity].
Qed.

Lemma retry_throws_last_failure_witness :
  0 < 2 /\
  (forall k, 0 <= k < 2 -> retried ((fun _ => Hangs) k) = true) /\
  fetchWithRetry "/taxa" (fun _ => Hangs) 2 =
  ([Attempt 0; Sleep 1000; Attempt 1],
   Rejects (ApiError "Request timeout after 30000ms" None (Some "/taxa"))).
Proof.
  assert (Hn : 0 < 2) by lia.
  assert (Hall : forall k, 0 <= k < 2 -> retried ((fun _ => Hangs) k) = true)
    by reflexivity.
  exact (conj Hn (conj Hall
    (retry_throws_last_failure "/taxa" (fun _ => Hangs) 2 Hn Hall))).
Defined.

(** X3. When the first [j] attempts fail and attempt [j], still within
    the allowed number, gets a 2xx or 4xx response, [fetchWithRetry]
    returns that response after [j + 1] attempts, having waited
    [RETRY_DELAY_MS * 2 ^ k] after each failed attempt [k]; what the
    network would do at later attempts does not matter. *)
Theorem retry_recovers (url : string) (env : Z -> net) (maxRetries : Z)
    (j : nat) (r : Response)
    (Hj : Z.of_nat j < maxRetries)
    (Hfail : forall k, 0 <= k < Z.of_nat j -> retried (env k) = true)
    (He : env (Z.of_nat j) = Responds r)
    (Ha : accepted r = true) :
  fetchWithRetry url env maxRetries = (all_retried 0 (S j), Resolves r).
Proof.
  unfold fetchWithRetry.
  now rewrite (retryLoop_recovers url env maxRetries r j) by (auto; lia).
Qed.

Lemma retry_recovers_witness :
  let r := {| status := 200; statusText := "OK"; body := Some "{}" |} in
  Z.of_nat 2 < 3 /\
  (forall k, 0 <= k < Z.of_nat 2 -> retried (flaky k) = true) /\
  flaky (Z.of_nat 2) = Responds r /\
  accepted r = true /\
  fetchWithRetry "/taxa" flaky 3 =
  ([Attempt 0; Sleep 1000; Attempt 1; Sleep 2000; Attempt 2], Resolves r).
Proof.
  intros r.
  assert (Hj : Z.of_nat 2 < 3) by lia.
  assert (Hfail : forall k, 0 <= k < Z.of_nat 2 -> retried (flaky k) = true).
  { intros k Hk. unfold flaky. replace (k <? 2) with true by lia. reflexivity. }
  assert (He : flaky (Z.of_nat 2) = Responds r) by reflexivity.
  assert (Ha : accepted r = true) by reflexivity.
  exact (conj Hj (conj Hfail (conj He (conj Ha
    (retry_recovers "/taxa" flaky 3 2 r Hj Hfail He Ha))))).
Defined.

Lemma total_wait_all_retried k :
  forall attempt, 0 <= attempt ->
    total_wait (all_retried attempt (S k)) =
    RETRY_DELAY_MS * (2 ^ (attempt + Z.of_nat k) - 2 ^ attempt).
Proof.
  induction k as [|k IH]; intros attempt Ha.
  - cbn [all_retried total_wait fold_right]. rewrite Z.add_0_r. lia.
  - rewrite all_retried_snoc. cbn [total_wait fold_right].
    change (fold_right _ 0 (all_retried (attempt + 1) (S k)))
      with (total_wait (all_retried (attempt + 1) (S k))).
    rewrite IH by lia.
    replace (attempt + Z.of_nat (S k)) with (attempt + 1 + Z.of_nat k) by lia.
    rewrite (Z.pow_add_r 2 attempt 1) by lia. lia.
Qed.

(** X4. The time [fetchWithRetry] spends waiting is at most
    [RETRY_DELAY_MS * (2 ^ (maxRetries - 1) - 1)], whatever the network
    does: 3000 ms with the default of three attempts. *)
Theorem retry_total_wait_bound (url : string) (env : Z -> net)
    (maxRetries : Z) (Hn : 0 < maxRetries) :
  0 <= total_wait (fst (fetchWithRetry url env maxRetries)) <=
  RETRY_DELAY_MS * (2 ^ (maxRetries - 1) - 1).
Proof.
  unfold fetchWithRetry.
  destruct (retryLoop_shape url env maxRetries (Z.to_nat maxRetries) 0 None [])
    as (k & Hk & Hk0 & Hlog & _); [lia|].
  rewrite Hlog. cbn [app].
  destruct k as [|k]; [destruct Hk0; lia|].
  rewrite total_wait_all_retried by lia. rewrite Z.add_0_l.
  assert (Hmono : 2 ^ Z.of_nat k <= 2 ^ (maxRetries - 1))
    by (apply Z.pow_le_mono_r; lia).
  assert (Hge : 2 ^ 0 <= 2 ^ Z.of_nat k) by (apply Z.pow_le_mono_r; lia).
  unfold RETRY_DELAY_MS. change (2 ^ 0) with 1 in *. lia.
Qed.

Lemma retry_total_wait_bound_witness :
  0 < 3 /\
  0 <= total_wait (fst (fetchWithRetry "/taxa" flaky 3)) <= 3000.
Proof.
  assert (Hn : 0 < 3) by lia.
  exact (conj Hn (retry_total_wait_bound "/taxa" flaky 3 Hn)).
Defined.

End RetryTheorems.

(** * More on the TTL cache *)

Section CacheReads.

Import Cache CacheSpec.

Context {T : Type} (P : platform T).

(** A write touches its key at most. *)
Lemma setCachedData_other key key' (v : T) ttl t store :
  key <> key' -> setCachedData P key v ttl t store !! key' = store !! key'.
Proof.
  intros Hne. unfold setCachedData.
  destruct (JSON_stringify P _); [|reflexivity].
  destruct (setItem_accepts P store key _); [|reflexivity].
  now apply lookup_insert_ne.
Qed.

(** What a read does to the store: nothing, or it removes its key, and
    then it returns no value. *)
Lemma getCachedData_store key now store :
  ((getCachedData P key now store).1 = store) \/
  ((getCachedData P key now store).1 = delete key store /\
   (getCachedData P key now store).2 = None /\
   is_Some (store !! key)).
Proof.
  unfold getCachedData, getCachedData_try.
  destruct (store !! key) as [cached|] eqn:Hk; [|now left].
  destruct (truthy cached); cbn [negb]; [|now left].
  destruct (JSON_parse P cached) as [| |data]; [now left | now left |].
  destruct (has_timestamp data); [|now left].
  destruct (exceeds _ _); [right; eauto | now left].
Qed.

(** The value read depends on the entry stored under the key only. *)
Lemma getCachedData_local key now store1 store2 :
  store1 !! key = store2 !! key ->
  (getCachedData P key now store1).2 = (getCachedData P key now store2).2.
Proof.
  intros Hk. unfold getCachedData, getCachedData_try. rewrite Hk.
  destruct (store2 !! key) as [cached|]; [|reflexivity].
  destruct (truthy cached); cbn [negb]; [|reflexivity].
  destruct (JSON_parse P cached) as [| |data]; try reflexivity.
  destruct (has_timestamp data); [|reflexivity].
  destruct (exceeds _ _); reflexivity.
Qed.

Lemma getCachedData_removes key now store :
  (getCachedData P key now store).1 !! key = None ->
  store !! key = None \/ stale P key now store.
Proof.
  unfold getCachedData, getCachedData_try, stale.
  destruct (store !! key) as [cached|] eqn:Hk; [|now left].
  destruct (truthy cached) eqn:Ht; cbn [negb];
    [|cbn; rewrite Hk; discriminate].
  destruct (JSON_parse P cached) as [| |data] eqn:Hp;
    try (cbn; rewrite Hk; discriminate).
  destruct (has_timestamp data) as [ts|] eqn:Hts;
    [|cbn; rewrite Hk; discriminate].
  destruct (exceeds _ _) eqn:He; [|cbn; rewrite Hk; discriminate].
  intros _. right. eauto 10.
Qed.

Lemma getCachedData_stale key now store :
  stale P key now store ->
  getCachedData P key now store = (delete key store, None).
Proof.
  intros (cached & data & ts & Hk & Ht & Hp & Hts & He).
  rewrite (getCachedData_parsed P key now store cached data Hk Ht Hp).
  now rewrite Hts, He.
Qed.

Lemma exceeds_later age age' ttl :
  age <= age' -> exceeds age ttl = true -> exceeds age' ttl = true.
Proof. unfold exceeds. destruct ttl; [lia | discriminate]. Qed.

End CacheReads.

(** X5. Entries under different keys do not interact: a write under
    [key] leaves the string stored under another key as it is, a read of
    [key] (which may remove [key]) does so too, and the value read under
    the other key is the same before and after the write. *)
Theorem cache_keys_independent {T : Type} (P : Cache.platform T)
    (key key' : string) (v : T) (ttl : option Z) (t now : Z)
    (store : gmap string string) (Hne : key <> key') :
  Cache.setCachedData P key v ttl t store !! key' = store !! key' /\
  (Cache.getCachedData P key now store).1 !! key' = store !! key' /\
  (Cache.getCachedData P key' now (Cache.setCachedData P key v ttl t store)).2 =
  (Cache.getCachedData P key' now store).2.
Proof.
  split; [now apply setCachedData_other|]. split.
  - destruct (getCachedData_store P key now store) as [-> | (-> & _)];
      [reflexivity | now apply lookup_delete_ne].
  - apply getCachedData_local. now apply setCachedData_other.
Qed.

Lemma cache_keys_independent_witness :
  let P := Cache.short_ttl_platform in
  let store : gmap string string :=
    {[ "iucn_page_2" := "{value:Gray wolf,_timestamp:1000,_ttl:100}" ]} in
  "iucn_page_1" <> "iucn_page_2" /\
  (Cache.getCachedData P "iucn_page_2" 1050
     (Cache.setCachedData P "iucn_page_1" "Red fox" None 1040 store)).2 =
  Some "Gray wolf".
Proof.
  intros P store.
  assert (Hne : "iucn_page_1" <> "iucn_page_2") by discriminate.
  split; [exact Hne|].
  exact (proj2 (proj2 (cache_keys_independent P "iucn_page_1" "iucn_page_2"
                         "Red fox" None 1040 1050 store Hne))).
Defined.

(** X6. A read never adds or changes an entry: it leaves the store as
    it is or removes the key it read, and it removes the key only when
    there was an entry and it returns no value.  Reading again at the
    same clock reading gives the same answer and changes nothing
    more. *)
Theorem cache_read_effect {T : Type} (P : Cache.platform T)
    (key : string) (now : Z) (store : gmap string string) :
  let store' := (Cache.getCachedData P key now store).1 in
  let r := (Cache.getCachedData P key now store).2 in
  (store' = store \/
   (store' = delete key store /\ r = None /\ is_Some (store !! key))) /\
  Cache.getCachedData P key now store' = (store', r).
Proof.
  cbv zeta. split; [apply getCachedData_store|].
  destruct (getCachedData_store P key now store) as [Hs | (Hs & Hr & _)].
  - destruct (Cache.getCachedData P key now store) as [s1 r1] eqn:Hg.
    cbn in *. subst s1. exact Hg.
  - rewrite Hs, Hr. apply getCachedData_missing, lookup_delete_eq.
Qed.

(** X7. Expiry is final: if a read at clock reading [now] leaves no
    entry under the key, a read of the same store at any later clock
    reading returns no value and leaves no entry either. *)
Theorem cache_expiry_is_final {T : Type} (P : Cache.platform T)
    (key : string) (now now' : Z) (store : gmap string string)
    (Hlater : now <= now')
    (Hgone : (Cache.getCachedData P key now store).1 !! key = None) :
  Cache.getCachedData P key now' store = (delete key store, None).
Proof.
  destruct (getCachedData_removes P key now store Hgone) as [Hk | Hst].
  - rewrite delete_id by assumption. now apply getCachedData_missing.
  - apply getCachedData_stale.
    destruct Hst as (cached & data & ts & Hk & Ht & Hp & Hts & He).
    exists cached, data, ts. repeat split; auto.
    apply (exceeds_later (now - ts)); [lia | exact He].
Qed.

Lemma cache_expiry_is_final_witness :
  let P := Cache.short_ttl_platform in
  let store := Cache.setCachedData P "k" "Gray wolf" (Some 100) 1000 ∅ in
  1101 <= 5000 /\
  (Cache.getCachedData P "k" 1101 store).1 !! "k" = None /\
  Cache.getCachedData P "k" 5000 store = (delete "k" store, None).
Proof.
  intros P store.
  assert (Hlater : 1101 <= 5000) by lia.
  assert (Hgone : (Cache.getCachedData P "k" 1101 store).1 !! "k" = None)
    by reflexivity.
  exact (conj Hlater (conj Hgone
    (cache_expiry_is_final P "k" 1101 5000 store Hlater Hgone))).
Defined.

(** * More on the parser *)

Section ParserMore.

Import ParserSpec.

Lemma trimStart_head s :
  trimStart s = EmptyString \/
  exists c r, trimStart s = String c r /\ isWhiteSpace c = false.
Proof.
  induction s as [|c r IH]; cbn; [now left|].
  destruct (isWhiteSpace c) eqn:Hc; [exact IH | right; eauto].
Qed.

Lemma trimEnd_idem s : trimEnd (trimEnd s) = trimEnd s.
Proof.
  induction s as [|c r IH]; [reflexivity|].
  cbn [trimEnd]. destruct (trimEnd r) as [|c' r'] eqn:Hr.
  - destruct (isWhiteSpace c) eqn:Hc; [reflexivity|].
    cbn. now rewrite Hc.
  - change (trimEnd (String c (String c' r')))
      with (match trimEnd (String c' r') with
            | EmptyString =>
                if isWhiteSpace c then EmptyString else String c EmptyString
            | s' => String c s'
            end).
    now rewrite IH.
Qed.

Lemma trim_idem s : trim (trim s) = trim s.
Proof.
  unfold trim.
  destruct (trimStart_head s) as [-> | (c & r & -> & Hc)]; [reflexivity|].
  destruct (trimEnd_keeps_head c r Hc) as [r' Hr]. rewrite Hr.
  cbn [trimStart]. rewrite Hc, <- Hr. apply trimEnd_idem.
Qed.

Lemma all_chars_trimStart p s :
  all_chars p s = true -> all_chars p (trimStart s) = true.
Proof.
  induction s as [|c r IH]; [auto|]. cbn [trimStart].
  destruct (isWhiteSpace c); [|auto].
  cbn. intros [_ H]%andb_true_iff. auto.
Qed.

Lemma all_chars_trimEnd p s :
  all_chars p s = true -> all_chars p (trimEnd s) = true.
Proof.
  induction s as [|c r IH]; [auto|].
  cbn [all_chars trimEnd]. intros [Hc Hr]%andb_true_iff.
  specialize (IH Hr). destruct (trimEnd r).
  - destruct (isWhiteSpace c); cbn; [reflexivity | now rewrite Hc].
  - cbn [all_chars] in *. now rewrite Hc, IH.
Qed.

Lemma all_chars_trim p s : all_chars p s = true -> all_chars p (trim s) = true.
Proof. intros H. now apply all_chars_trimEnd, all_chars_trimStart. Qed.

Lemma lazy_name_no_paren rest g : lazy_name rest = Some g -> no_paren g = true.
Proof.
  revert g. induction rest as [|c r IH]; intros g; cbn; [discriminate|].
  destruct (isParen c) eqn:Hc; [discriminate|].
  destruct (name_tail r).
  - intros [= <-]. unfold no_paren. cbn. now rewrite Hc.
  - destruct (lazy_name r) as [g'|]; [|discriminate].
    intros [= <-]. unfold no_paren in *. cbn. rewrite Hc. now apply IH.
Qed.

Lemma nMatch_no_paren line g : nMatch line = Some g -> no_paren g = true.
Proof.
  induction line as [|c r IH]; [discriminate|].
  cbn [nMatch].
  destruct (startsWith "N=" (String c r)); [|exact IH].
  destruct (lazy_name _) as [g'|] eqn:Hl; [|exact IH].
  intros [= <-]. eapply lazy_name_no_paren, Hl.
Qed.

Lemma clean_name_trim g : no_paren g = true -> clean_name (trim g).
Proof.
  intros H. split; [apply trim_idem | now apply all_chars_trim].
Qed.

Lemma clean_state_initial : clean_state Parser.initial.
Proof.
  split; [split; reflexivity|].
  intros k v Hk. unfold Parser.initial in Hk. cbn [speciesMap] in Hk.
  now rewrite lookup_empty in Hk.
Qed.

Lemma clean_state_onName line st : clean_state st -> clean_state (onName line st).
Proof.
  intros [Hc He]. unfold onName.
  destruct (header_re line && includes "N=" line); [|now split].
  destruct (nMatch line) as [g|] eqn:Hg; [|now split].
  split; [|exact He]. cbn. eapply clean_name_trim, nMatch_no_paren, Hg.
Qed.

Lemma clean_state_onCommon t st : clean_state st -> clean_state (onCommon t st).
Proof.
  intros [Hc He]. unfold onCommon.
  destruct (startsWith "C=" t); cbn [andb]; [|now split].
  destruct (truthy (currentScientificName st)) eqn:Ht; [|now split].
  destruct (truthy (trim (substringFrom 2 t))) eqn:Hv; [|now split].
  split; [exact Hc|]. cbn. intros k v.
  destruct (decide (currentScientificName st = k)) as [<-|Hne].
  - rewrite lookup_insert_eq. intros [= <-].
    exact (conj Ht (conj Hc (conj Hv (trim_idem _)))).
  - rewrite lookup_insert_ne by assumption. apply He.
Qed.

Lemma clean_state_onSynonym t st :
  clean_state st -> clean_state (onSynonym t st).
Proof.
  intros [Hc He]. unfold onSynonym.
  destruct (startsWith "S=" t && truthy (currentScientificName st));
    [|now split].
  case_bool_decide; [now split|].
  split; [split; reflexivity | exact He].
Qed.

Lemma clean_state_step line st st' :
  clean_state st ->
  parseLine line st = Next st' \/ parseLine line st = Break st' ->
  clean_state st'.
Proof.
  intros Hst. unfold parseLine.
  assert (Hflag : forall b,
            clean_state (PState (speciesMap st) (currentScientificName st) b))
    by (intros b; destruct Hst; now split).
  destruct (includes real_header line).
  { intros [[= <-] | [=]]. apply Hflag. }
  destruct (includes virtual_header line).
  { intros [[=] | [= <-]]. exact Hst. }
  destruct (negb (inDataSection st)).
  { intros [[= <-] | [=]]. exact Hst. }
  destruct (startsWith "_____" line || startsWith "===" line).
  { intros [[= <-] | [=]]. exact Hst. }
  cbv zeta. destruct (negb (truthy (trim line))).
  { intros [[= <-] | [=]]. exact Hst. }
  intros [[= <-] | [=]].
  now apply clean_state_onSynonym, clean_state_onCommon, clean_state_onName.
Qed.

Lemma clean_state_loop lines st :
  clean_state st -> clean_state (parseLoop lines st).
Proof.
  revert st. induction lines as [|l ls IH]; intros st Hst; cbn; [exact Hst|].
  destruct (parseLine l st) as [st'|st'] eqn:Hl.
  - apply IH. eapply clean_state_step; eauto.
  - eapply clean_state_step; eauto.
Qed.

(** X8. Every entry of the parsed map is clean: the scientific name is
    not empty, has no white space at either end and holds no
    parenthesis, and the common name is not empty and has no white space
    at either end. *)
Theorem parsed_entries_are_clean (text k v : string)
    (Hk : parseUniProtSpecList text !! k = Some v) :
  k <> "" /\ trim k = k /\ no_paren k = true /\ v <> "" /\ trim v = v.
Proof.
  destruct (clean_entries _ (clean_state_loop (split_nl text) _
                               clean_state_initial) k v Hk)
    as (Hkt & [Hk1 Hk2] & Hvt & Hv1).
  repeat split; auto; intros ->; discriminate.
Qed.

Lemma parsed_entries_are_clean_witness :
  parseUniProtSpecList sample_file !! "Aedes albopictus densovirus" =
    Some "AalDNV" /\
  no_paren "Aedes albopictus densovirus" = true.
Proof.
  assert (Hk : parseUniProtSpecList sample_file
                 !! "Aedes albopictus densovirus" = Some "AalDNV")
    by (vm_compute; reflexivity).
  split; [exact Hk|].
  exact (proj1 (proj2 (proj2 (parsed_entries_are_clean sample_file _ _ Hk)))).
Defined.

(** An ignorable line leaves the parser state as it is. *)
Lemma parseLine_ignorable line st :
  ignorable line = true -> parseLine line st = Next st.
Proof.
  unfold ignorable, parseLine.
  destruct (includes real_header line); [discriminate|].
  destruct (includes virtual_header line); [discriminate|].
  cbn [negb andb].
  destruct (negb (inDataSection st)); [reflexivity|].
  destruct (startsWith "_____" line || startsWith "===" line);
    [reflexivity|].
  cbv zeta. destruct (negb (truthy (trim line))); [reflexivity|].
  cbn [orb]. intros [[Hn HC]%andb_true_iff HS]%andb_true_iff.
  apply negb_true_iff in Hn, HC, HS.
  unfold onName, onCommon, onSynonym. rewrite Hn. now rewrite HC, HS.
Qed.

Lemma parseLoop_skip_line pre line post st :
  (forall st', parseLine line st' = Next st') ->
  parseLoop (pre ++ line :: post) st = parseLoop (pre ++ post) st.
Proof.
  intros Hl. revert st. induction pre as [|l ls IH]; intros st; cbn.
  - now rewrite Hl.
  - destruct (parseLine l st); auto.
Qed.

(** X9. A separator line, a blank line, or a line without section
    header that is no record header and starts with neither [C=] nor
    [S=] can be put into the text, or taken out of it, anywhere: the
    parsed map is the same. *)
Theorem ignorable_line_is_skipped (a line b : string)
    (Hline : split_nl line = [line])
    (Hig : ignorable line = true) :
  parseUniProtSpecList (a ++ nl ++ line ++ nl ++ b) =
  parseUniProtSpecList (a ++ nl ++ b).
Proof.
  unfold parseUniProtSpecList, parseLines.
  rewrite !split_nl_line, Hline. cbn [app].
  apply f_equal, parseLoop_skip_line.
  intros st'. now apply parseLine_ignorable.
Qed.

Lemma ignorable_line_is_skipped_witness :
  let line := "Code    Taxon    N=Official (scientific) name" in
  split_nl line = [line] /\
  ignorable line = true /\
  parseUniProtSpecList
    ((real_header ++ nl ++ "HUMAN E    9606: N=Homo sapiens") ++ nl ++
     line ++ nl ++ "                 C=Human") =
  parseUniProtSpecList
    ((real_header ++ nl ++ "HUMAN E    9606: N=Homo sapiens") ++ nl ++
     "                 C=Human").
Proof.
  intros line.
  assert (Hline : split_nl line = [line]) by reflexivity.
  assert (Hig : ignorable line = true) by reflexivity.
  exact (conj Hline (conj Hig
    (ignorable_line_is_skipped _ line _ Hline Hig))).
Defined.

(** One pass of the loop removes no key. *)
Lemma parseLine_keeps_keys line st st' k :
  parseLine line st = Next st' \/ parseLine line st = Break st' ->
  is_Some (speciesMap st !! k) -> is_Some (speciesMap st' !! k).
Proof.
  unfold parseLine.
  destruct (includes real_header line); [intros [[= <-] | [=]]; auto|].
  destruct (includes virtual_header line); [intros [[=] | [= <-]]; auto|].
  destruct (negb (inDataSection st)); [intros [[= <-] | [=]]; auto|].
  destruct (startsWith "_____" line || startsWith "===" line);
    [intros [[= <-] | [=]]; auto|].
  cbv zeta. destruct (negb (truthy (trim line)));
    [intros [[= <-] | [=]]; auto|].
  intros [[= <-] | [=]] Hk.
  assert (H1 : is_Some (speciesMap (onName line st) !! k)).
  { unfold onName. destruct (header_re line && includes "N=" line); auto.
    destruct (nMatch line); auto. }
  assert (H2 : is_Some (speciesMap (onCommon (trim line) (onName line st)) !! k)).
  { unfold onCommon.
    destruct (startsWith "C=" (trim line) &&
              truthy (currentScientificName (onName line st))); auto.
    destruct (truthy (trim (substringFrom 2 (trim line)))); auto.
    cbn [speciesMap]. rewrite lookup_insert. case_decide; eauto. }
  unfold onSynonym.
  destruct (startsWith "S=" (trim line) && truthy _); auto.
  case_bool_decide; auto.
Qed.

Lemma parseLoop_keeps_keys lines st k :
  is_Some (speciesMap st !! k) ->
  is_Some (speciesMap (parseLoop lines st) !! k).
Proof.
  revert st. induction lines as [|l ls IH]; intros st Hk; cbn; [exact Hk|].
  destruct (parseLine l st) as [st'|st'] eqn:Hl.
  - apply IH. eapply parseLine_keeps_keys; eauto.
  - eapply parseLine_keeps_keys; eauto.
Qed.

(** The loop over a text with more lines at its end stops inside the
    first part or goes on from where the first part leaves it. *)
Lemma parseLoop_app pre more st :
  parseLoop (pre ++ more) st = parseLoop pre st \/
  parseLoop (pre ++ more) st = parseLoop more (parseLoop pre st).
Proof.
  revert st. induction pre as [|l ls IH]; intros st; cbn; [now right|].
  destruct (parseLine l st); auto.
Qed.

(** X10. Text added at the end removes no entry: every scientific name
    that has an entry in the map parsed from [a] has one in the map
    parsed from [a] followed by further lines (a later [C=] line may
    replace its common name). *)
Theorem appended_text_keeps_keys (a b k : string)
    (Hk : is_Some (parseUniProtSpecList a !! k)) :
  is_Some (parseUniProtSpecList (a ++ nl ++ b) !! k).
Proof.
  unfold parseUniProtSpecList, parseLines in *. rewrite split_nl_line.
  destruct (parseLoop_app (split_nl a) (split_nl b) Parser.initial)
    as [-> | ->]; [exact Hk | now apply parseLoop_keeps_keys].
Qed.

Lemma appended_text_keeps_keys_witness :
  is_Some (parseUniProtSpecList sample_file !! "Homo sapiens") /\
  is_Some (parseUniProtSpecList (sample_file ++ nl ++ leak_source)
             !! "Homo sapiens").
Proof.
  assert (Hk : is_Some (parseUniProtSpecList sample_file !! "Homo sapiens"))
    by (exists "Human"; vm_compute; reflexivity).
  exact (conj Hk (appended_text_keeps_keys sample_file leak_source _ Hk)).
Defined.

(** The first line of a text is a prefix of it. *)
Lemma first_line_prefix s l ls m :
  split_nl s = l :: ls -> startsWith m l = true -> startsWith m s = true.
Proof.
  revert l ls m. induction s as [|c r IH]; intros l ls m; cbn [split_nl].
  - now intros [= <- _].
  - destruct (Ascii.eqb c newline).
    + intros [= <- _]. destruct m; [reflexivity | discriminate].
    + destruct (split_nl r) as [|l0 ls0] eqn:Hr;
        [now destruct (split_nl_nonempty r)|].
      intros [= <- _]. destruct m as [|a m']; [reflexivity|].
      cbn [startsWith]. intros [Ha Hm]%andb_true_iff.
      rewrite Ha. cbn [andb]. eapply IH; eauto.
Qed.

Lemma includes_tail n c r : includes n r = true -> includes n (String c r) = true.
Proof. intros H. cbn [includes]. rewrite H. apply orb_true_r. Qed.

Lemma includes_empty_needle n : includes n "" = true -> n = "".
Proof. destruct n; [reflexivity | cbn; discriminate]. Qed.

Lemma includes_empty s : includes "" s = true.
Proof. destruct s; reflexivity. Qed.

(** What a line of the text includes, the text includes. *)
Lemma includes_line n s l :
  l ∈ split_nl s -> includes n l = true -> includes n s = true.
Proof.
  revert l. induction s as [|c r IH]; intros l; cbn [split_nl].
  - now intros ->%list_elem_of_singleton.
  - destruct (Ascii.eqb c newline) eqn:Enl.
    + intros [-> | Hin]%elem_of_cons Hl.
      * apply includes_empty_needle in Hl. subst n. apply includes_empty.
      * apply includes_tail. eauto.
    + destruct (split_nl r) as [|l0 ls0] eqn:Hr;
        [now destruct (split_nl_nonempty r)|].
      intros [-> | Hin]%elem_of_cons Hl.
      * cbn [includes] in Hl |- *. apply orb_true_iff in Hl as [Hs | Hi].
        -- rewrite (first_line_prefix (String c r) (String c l0) ls0 n);
             [reflexivity | | exact Hs].
           cbn [split_nl]. now rewrite Enl, Hr.
        -- apply includes_tail. apply (IH l0); [left | exact Hi].
      * apply includes_tail. apply (IH l); [now right | exact Hl].
Qed.

End ParserMore.

(** * More on the loader and the lookups *)

Section LoaderMore.

Import Fetch Cache Species LookupSamples.

Lemma no_header_no_entries text :
  includes real_header text = false -> parseUniProtSpecList text = ∅.
Proof.
  intros Hh. unfold parseUniProtSpecList, parseLines.
  assert (Hall : Forall (fun l => includes real_header l = false)
                        (split_nl text)).
  { apply Forall_forall. intros l Hl.
    destruct (includes real_header l) eqn:E; [|reflexivity].
    rewrite (includes_line _ _ _ Hl E) in Hh. discriminate. }
  pose proof (parseLoop_prefix (split_nl text) [] Parser.initial eq_refl Hall)
    as Hp.
  rewrite app_nil_r in Hp. rewrite Hp.
  now destruct (existsb _ _).
Qed.

Lemma Map_of_rev (l : list (string * string)) :
  Map_of l = list_to_map (rev l).
Proof.
  unfold Map_of, list_to_map. rewrite fold_left_rev_right. reflexivity.
Qed.

(** Rebuilding a map from its entries gives the map back. *)
Lemma Map_of_entries (m : gmap string string) : Map_of (map_to_list m) = m.
Proof.
  rewrite Map_of_rev.
  rewrite <- (list_to_map_to_list m) at 2.
  symmetry. apply list_to_map_proper.
  - apply NoDup_fst_map_to_list.
  - apply Permutation_rev.
Qed.

Lemma lookupNames_fold (m : gmap string string) names :
  forall (acc : gmap string string) n,
    fold_left
      (fun results name =>
         let commonName := lookupName m name in
         if truthy commonName then <[name := commonName]> results
         else results) names acc !! n =
    if bool_decide (n ∈ names) && truthy (lookupName m n)
    then Some (lookupName m n) else acc !! n.
Proof.
  induction names as [|x l IH]; intros acc n; cbn [fold_left].
  - rewrite bool_decide_eq_false_2 by apply not_elem_of_nil. reflexivity.
  - rewrite IH. cbv zeta.
    destruct (decide (n ∈ l)) as [Hin|Hnin].
    + rewrite !bool_decide_eq_true_2 by (try right; assumption).
      cbn [andb]. destruct (truthy (lookupName m n)) eqn:Ht; [reflexivity|].
      destruct (truthy (lookupName m x)) eqn:Hx; [|reflexivity].
      rewrite lookup_insert_ne; [reflexivity|]. intros ->. congruence.
    + rewrite (bool_decide_eq_false_2 (n ∈ l)) by assumption. cbn [andb].
      destruct (decide (n = x)) as [->|Hne].
      * rewrite bool_decide_eq_true_2 by left. cbn [andb].
        destruct (truthy (lookupName m x)); [apply lookup_insert_eq|reflexivity].
      * rewrite bool_decide_eq_false_2
          by (intros [?|?]%elem_of_cons; contradiction).
        cbn [andb]. destruct (truthy (lookupName m x)); [|reflexivity].
        now rewrite lookup_insert_ne by congruence.
Qed.

Lemma lowerChar_idem c : lowerChar (lowerChar c) = lowerChar c.
Proof. destruct c as [[] [] [] [] [] [] [] []]; vm_compute; reflexivity. Qed.

Lemma toLowerCase_idem s : toLowerCase (toLowerCase s) = toLowerCase s.
Proof.
  induction s as [|c r IH]; [reflexivity|].
  cbn [toLowerCase]. now rewrite lowerChar_idem, IH.
Qed.

(** With lower-case keys only, the lookup reads the map at the
    lower-cased name. *)
Lemma lookupName_lower_keys (m : gmap string string) n :
  (forall k, is_Some (m !! k) -> toLowerCase k = k) ->
  lookupName m n = or_else (m !! toLowerCase n) "".
Proof.
  intros Hlow. unfold lookupName.
  destruct (m !! n) as [v|] eqn:Hn; [|reflexivity].
  rewrite (Hlow n) by eauto. rewrite Hn. cbn.
  now destruct (truthy v).
Qed.

End LoaderMore.

(** X11. A source text that does not include the real-organism header
    gives an empty map, however many records it holds; the loader then
    takes the load for failed and writes nothing to the cache. *)
Theorem missing_header_gives_nothing
    (P : Cache.platform (list (string * string))) (url text : string)
    (response : Fetch.Response) (now : Z) (store : gmap string string)
    (Hh : includes real_header text = false)
    (Hb : Fetch.body response = Some text) :
  parseUniProtSpecList text = ∅ /\
  Species.loadFromServer P url (Fetch.Responds response) now store =
    (store, Cache.Throw).
Proof.
  pose proof (no_header_no_entries text Hh) as He.
  split; [exact He|].
  apply loadFromServer_fails. right. rewrite Hb. auto.
Qed.

Lemma missing_header_gives_nothing_witness :
  let P := Species.rendering_platform (Cache.Envelope None None None) in
  includes real_header LookupSamples.headless_source = false /\
  Fetch.body LookupSamples.headless_response =
    Some LookupSamples.headless_source /\
  Species.loadFromServer P "/speclist.txt"
    (Fetch.Responds LookupSamples.headless_response) 5000 ∅ = (∅, Cache.Throw).
Proof.
  intros P.
  assert (Hh : includes real_header LookupSamples.headless_source = false)
    by (vm_compute; reflexivity).
  assert (Hb : Fetch.body LookupSamples.headless_response =
               Some LookupSamples.headless_source) by reflexivity.
  exact (conj Hh (conj Hb (proj2
    (missing_header_gives_nothing P "/speclist.txt" _
       LookupSamples.headless_response 5000 ∅ Hh Hb)))).
Defined.

(** X12. The batch lookup agrees with the single lookup: the map that
    [getCommonNames] builds has an entry for a name exactly when the
    name is among those asked for and its single lookup is not empty,
    and the entry is that lookup.  Names without a match are left
    out. *)
Theorem batch_lookup_is_pointwise (m : gmap string string)
    (names : list string) (n : string) :
  Species.lookupNames m names !! n =
  if bool_decide (n ∈ names) && truthy (Species.lookupName m n)
  then Some (Species.lookupName m n) else None.
Proof.
  unfold Species.lookupNames. rewrite lookupNames_fold.
  now rewrite lookup_empty.
Qed.

(** X13. When every key of the map is lower case, the lookup does not
    depend on the case of the name asked for: two names with the same
    lower-case form get the same answer. *)
Theorem lower_case_keys_ignore_case (m : gmap string string) (n n' : string)
    (Hlow : forall k, is_Some (m !! k) -> toLowerCase k = k)
    (Hsame : toLowerCase n = toLowerCase n') :
  Species.lookupName m n = Species.lookupName m n'.
Proof.
  rewrite !lookupName_lower_keys by assumption. now rewrite Hsame.
Qed.

Lemma lower_case_keys_ignore_case_witness :
  (forall k, is_Some (LookupSamples.lower_map !! k) -> toLowerCase k = k) /\
  toLowerCase "Canis lupus" = toLowerCase "CANIS LUPUS" /\
  Species.lookupName LookupSamples.lower_map "Canis lupus" = "Gray wolf" /\
  Species.lookupName LookupSamples.lower_map "CANIS LUPUS" = "Gray wolf".
Proof.
  assert (Hlow : forall k, is_Some (LookupSamples.lower_map !! k) ->
                           toLowerCase k = k).
  { intros k [v Hk]. unfold LookupSamples.lower_map in Hk.
    apply lookup_singleton_Some in Hk as [<- _]. reflexivity. }
  assert (Hsame : toLowerCase "Canis lupus" = toLowerCase "CANIS LUPUS")
    by reflexivity.
  pose proof (lower_case_keys_ignore_case _ _ _ Hlow Hsame) as Heq.
  refine (conj Hlow (conj Hsame (conj _ _))).
  - vm_compute. reflexivity.
  - rewrite <- Heq. vm_compute. reflexivity.
Defined.

(** X14. A map that was loaded from the network and written to the
    cache is served from the cache afterwards: while the entry is not
    older than [UNIPROT_CACHE_TTL], every later call of the loader
    returns the same map and leaves the store as it is, whatever the
    network would answer. *)
Theorem loaded_list_is_reused
    (P : Cache.platform (list (string * string))) (url text s : string)
    (response : Fetch.Response) (t_r t_w : Z) (store : gmap string string)
    (Hmiss : (Cache.getCachedData P Species.cache_key t_r store).2 = None)
    (Hok : Fetch.ok response = true)
    (Hbody : Fetch.body response = Some text)
    (Hlen : (1000 <= String.length text)%nat)
    (Hparse : parseUniProtSpecList text <> ∅)
    (Ht : t_w <> 0)
    (Hw : Cache.written P
            (Cache.Envelope (Some (map_to_list (parseUniProtSpecList text)))
                            (Some t_w) (Some Species.UNIPROT_CACHE_TTL))
            s Species.cache_key
            (Cache.getCachedData P Species.cache_key t_r store).1) :
  let first := Species.loadUniProtSpeciesList P url t_r t_w
                 (Fetch.Responds response) store in
  first.2 = Cache.Return (parseUniProtSpecList text) /\
  forall now t' n,
    now - t_w <= Species.UNIPROT_CACHE_TTL ->
    Species.loadUniProtSpeciesList P url now t' n first.1 =
    (first.1, Cache.Return (parseUniProtSpecList text)).
Proof.
  cbv zeta.
  assert (Hfirst :
    Species.loadUniProtSpeciesList P url t_r t_w (Fetch.Responds response)
      store =
    (<[Species.cache_key := s]>
       (Cache.getCachedData P Species.cache_key t_r store).1,
     Cache.Return (parseUniProtSpecList text))).
  { unfold Species.loadUniProtSpeciesList.
    destruct (Cache.getCachedData P Species.cache_key t_r store)
      as [store1 cached].
    cbn [fst snd] in Hmiss, Hw |- *. subst cached.
    rewrite (loadFromServer_succeeds P url response text t_w store1)
      by assumption.
    now rewrite (setCachedData_written P _ _ _ _ _ _ Hw). }
  rewrite Hfirst. cbn [fst snd]. split; [reflexivity|].
  intros now t' n Hfresh.
  destruct Hw as (_ & _ & Hs & Hp).
  unfold Species.loadUniProtSpeciesList.
  rewrite (getCachedData_parsed P Species.cache_key now _ s _
             (lookup_insert_eq _ _ _) Hs Hp).
  unfold Cache.has_timestamp. cbn [Cache._timestamp Cache._ttl Cache.value].
  replace (t_w =? 0) with false by lia.
  unfold Cache.or_Infinity, Cache.exceeds.
  change (Species.UNIPROT_CACHE_TTL =? 0) with false. cbv iota.
  replace (Species.UNIPROT_CACHE_TTL <? now - t_w) with false by lia.
  now rewrite Map_of_entries.
Qed.

Lemma loaded_list_is_reused_witness :
  let P := Species.rendering_platform LookupSamples.loaded_envelope in
  let first := Species.loadUniProtSpeciesList P "/speclist.txt" 0 5000
                 (Fetch.Responds Species.sample_response) ∅ in
  (Cache.getCachedData P Species.cache_key 0 ∅).2 = None /\
  Fetch.ok Species.sample_response = true /\
  Fetch.body Species.sample_response = Some Species.sample_source /\
  (1000 <= String.length Species.sample_source)%nat /\
  parseUniProtSpecList Species.sample_source <> ∅ /\
  5000 <> 0 /\
  Cache.written P LookupSamples.loaded_envelope
    (Species.render LookupSamples.loaded_envelope) Species.cache_key
    (Cache.getCachedData P Species.cache_key 0 ∅).1 /\
  Species.loadUniProtSpeciesList P "/speclist.txt" 86400000 86400000
    Fetch.Hangs first.1 =
  (first.1, Cache.Return (parseUniProtSpecList Species.sample_source)).
Proof.
  intros P first.
  assert (Hmiss : (Cache.getCachedData P Species.cache_key 0 ∅).2 = None)
    by reflexivity.
  assert (Hok : Fetch.ok Species.sample_response = true) by reflexivity.
  assert (Hbody : Fetch.body Species.sample_response =
                  Some Species.sample_source) by reflexivity.
  assert (Hlen : (1000 <= String.length Species.sample_source)%nat)
    by (apply Nat.leb_le; vm_compute; reflexivity).
  assert (Hparse : parseUniProtSpecList Species.sample_source <> ∅).
  { intros He.
    assert (Hh : parseUniProtSpecList Species.sample_source !! "Homo sapiens"
                 = Some "Human") by (vm_compute; reflexivity).
    rewrite He in Hh. discriminate Hh. }
  assert (Ht : 5000 <> 0) by lia.
  assert (Hw : Cache.written P LookupSamples.loaded_envelope
                 (Species.render LookupSamples.loaded_envelope)
                 Species.cache_key
                 (Cache.getCachedData P Species.cache_key 0 ∅).1)
    by (repeat split; vm_compute; reflexivity).
  assert (Hfresh : 86400000 - 5000 <= Species.UNIPROT_CACHE_TTL)
    by (vm_compute; discriminate).
  refine (conj Hmiss (conj Hok (conj Hbody (conj Hlen (conj Hparse
            (conj Ht (conj Hw _))))))).
  exact (proj2 (loaded_list_is_reused P "/speclist.txt" Species.sample_source
                  (Species.render LookupSamples.loaded_envelope)
                  Species.sample_response 0 5000 ∅
                  Hmiss Hok Hbody Hlen Hparse Ht Hw)
               86400000 86400000 Fetch.Hangs Hfresh).
Defined.

(** * More on the shared state *)

Section LoadedState.

Import Species.

Lemma loaded_step w a m :
  single_flight w -> speciesCache w = Some m ->
  speciesCache (step w a) = Some m.
Proof.
  intros Hsf Hm. pose proof (sf_cache w Hsf m Hm) as Hps.
  destruct a as [c | p m' | i]; cbn [step].
  - unfold invoke, startLoad, spawn. rewrite Hm. destruct c; reflexivity.
  - unfold settle. destruct (promises w !! p) as [[?|]|]; exact Hm.
  - unfold resume. destruct (tasks w !! i) as [[c p o|c r]|]; try exact Hm.
    destruct (promises w !! p) as [[m'|]|] eqn:Hp; try exact Hm.
    cbn [speciesCache]. rewrite Hps in Hp.
    destruct p as [|p]; cbn in Hp; [congruence | discriminate].
Qed.

Lemma loaded_run schedule w m :
  single_flight w -> speciesCache w = Some m ->
  speciesCache (run schedule w) = Some m.
Proof.
  revert w. induction schedule as [|a l IH]; intros w Hsf Hm; [exact Hm|].
  cbn. apply IH; [now apply single_flight_step | now apply loaded_step].
Qed.

(** Once the map is there, a caller returns without suspending. *)
Lemma invoke_loaded w c m :
  speciesCache w = Some m -> invoke c w = spawn (Done c (answer m c)) w.
Proof. intros Hm. unfold invoke. rewrite Hm. destruct c; reflexivity. Qed.

End LoadedState.

(** X15. The loaded map is final.  Once [speciesCache] holds a map,
    whatever callers enter, promises resolve or callers resume
    afterwards, it holds the same map, the loader is not called again
    (also when the map is the empty one of a failed load), and every
    caller that enters returns at once with its answer read in that
    map. *)
Theorem loaded_map_is_final (before after : list Species.action)
    (m : gmap string string) (c : Species.call)
    (Hm : Species.speciesCache (Species.run before Species.initial) = Some m) :
  let w := Species.run (before ++ after) Species.initial in
  Species.speciesCache w = Some m /\
  Species.loads w = 1%nat /\
  Species.invoke c w = Species.spawn (Species.Done c (Species.answer m c)) w.
Proof.
  cbv zeta. rewrite run_app.
  pose proof (single_flight_run before _ single_flight_initial) as Hsf.
  pose proof (loaded_run after _ m Hsf Hm) as Hm'.
  pose proof (single_flight_run after _ Hsf) as Hsf'.
  split; [exact Hm'|]. split.
  - pose proof (Species.sf_cache _ Hsf' m Hm') as Hps.
    unfold Species.loads. now rewrite Hps.
  - now apply invoke_loaded.
Qed.

Lemma loaded_map_is_final_witness :
  let before := [Species.Invoke Species.preloadUniProtData;
                 Species.Settle 0 ∅; Species.Resume 0] in
  let after := [Species.Invoke (Species.getCommonName "Canis lupus");
                Species.Settle 0 Species.wolf_map; Species.Resume 1] in
  let w := Species.run (before ++ after) Species.initial in
  Species.speciesCache (Species.run before Species.initial) = Some ∅ /\
  Species.speciesCache w = Some ∅ /\
  Species.loads w = 1%nat.
Proof.
  intros before after w.
  assert (Hm : Species.speciesCache (Species.run before Species.initial)
               = Some ∅) by reflexivity.
  pose proof (loaded_map_is_final before after ∅ Species.preloadUniProtData Hm)
    as (H1 & H2 & _).
  exact (conj Hm (conj H1 H2)).
Defined.

(** * The environment check *)

(** X16. [validateEnvironment] reports the environment valid exactly
    when each of the five required variables is set to a non-empty
    string; [missing] lists the required variables that are not, and it
    is empty exactly when the environment is valid. *)
Theorem validateEnvironment_spec (env : gmap string string) :
  let r := Environment.validateEnvironment env in
  (Environment.valid r = true <->
   forall v, In v Environment.requiredVars ->
             exists s, env !! v = Some s /\ s <> "") /\
  (forall v, In v (Environment.missing r) <->
             In v Environment.requiredVars /\ Environment.unset env v = true) /\
  (Environment.valid r = true <-> Environment.missing r = []).
Proof.
  cbv zeta. unfold Environment.validateEnvironment.
  cbn [Environment.valid Environment.missing].
  assert (Hnil : Nat.eqb (List.length (List.filter (Environment.unset env)
                            Environment.requiredVars)) 0 = true <->
                 List.filter (Environment.unset env)
                   Environment.requiredVars = []).
  { rewrite Nat.eqb_eq. split; [apply List.length_zero_iff_nil|].
    now intros ->. }
  assert (Hset : forall v, Environment.unset env v = false <->
                           exists s, env !! v = Some s /\ s <> "").
  { intros v. unfold Environment.unset.
    destruct (env !! v) as [s|]; split.
    - destruct s; [discriminate|]. intros _. eexists. split; [reflexivity|].
      discriminate.
    - intros (s' & [= <-] & Hs). destruct s; [contradiction | reflexivity].
    - discriminate.
    - intros (s' & [=] & _). }
  split; [|split; [|exact Hnil]].
  - rewrite Hnil. split.
    + intros Hf v Hv. apply Hset.
      destruct (Environment.unset env v) eqn:Hu; [|reflexivity].
      assert (Hin : In v (List.filter (Environment.unset env)
                            Environment.requiredVars))
        by (apply List.filter_In; auto).
      rewrite Hf in Hin. contradiction.
    + intros Hall.
      destruct (List.filter (Environment.unset env) Environment.requiredVars)
        as [|v l] eqn:Hf; [reflexivity|].
      assert (Hin : In v (List.filter (Environment.unset env)
                            Environment.requiredVars))
        by (rewrite Hf; now left).
      apply List.filter_In in Hin as [Hv Hu].
      apply Hall, Hset in Hv. congruence.
  - intros v. apply List.filter_In.
Qed.

(** * Debouncing *)

Section DebounceTheorems.

Import Debounce.

Context {Args : Type}.

(** What has been passed to [func] and what is still pending is a
    sublist of the calls made. *)
Lemma drun_sublist (events : list (devent Args)) :
  forall st earlier,
    sublist (invoked st ++ pending st)%list earlier ->
    sublist (invoked (drun events st) ++ pending (drun events st))%list
            (earlier ++ called events)%list.
Proof.
  induction events as [|e l IH]; intros st earlier Hst.
  - change (drun [] st) with st. change (called (@nil (devent Args))) with (@nil Args).
    now rewrite app_nil_r.
  - change (drun (e :: l) st) with (drun l (dstep st e)).
    destruct e as [args|].
    + change (called (Call args :: l)) with (args :: called l).
      replace (earlier ++ args :: called l)%list
        with ((earlier ++ [args]) ++ called l)%list
        by now rewrite <- app_assoc.
      apply IH.
      change (sublist (invoked st ++ [args]) (earlier ++ [args]))%list.
      apply sublist_app; [|reflexivity].
      etransitivity; [|exact Hst]. apply sublist_inserts_r. reflexivity.
    + change (called (Elapse :: l)) with (called l).
      apply IH. unfold dstep, later, pending in Hst |- *.
      destruct (timeout st) as [a|] eqn:Ht.
      * cbn [invoked timeout]. now rewrite app_nil_r.
      * now rewrite Ht.
Qed.

Lemma drun_calls (argss : list Args) :
  forall (last : Args) (st : dstate Args),
    drun (Call <$> (argss ++ [last])%list) st =
    DState (Some last) (invoked st).
Proof.
  induction argss as [|a l IH]; intros last st; [reflexivity|].
  change (drun (Call <$> ((a :: l) ++ [last])%list) st)
    with (drun (Call <$> (l ++ [last])%list) (executedFunction a st)).
  now rewrite IH.
Qed.

Lemma drun_app (l1 l2 : list (devent Args)) st :
  drun (l1 ++ l2)%list st = drun l2 (drun l1 st).
Proof. unfold drun. apply fold_left_app. Qed.

End DebounceTheorems.

(** X17. A debounced function passes on the last call of a burst only:
    after any number of calls in a row and the timer firing once, [func]
    has been called exactly once more, with the arguments of the last
    call, and no timer is pending.  Over any sequence of calls and
    timer firings, the arguments [func] is called with are, in order,
    arguments of calls made, each call passed on at most once. *)
Theorem debounce_passes_last_call {Args : Type} (argss : list Args)
    (last : Args) (st : Debounce.dstate Args)
    (events : list (Debounce.devent Args)) :
  Debounce.drun ((Debounce.Call <$> (argss ++ [last])%list) ++
                 [Debounce.Elapse])%list st
    = Debounce.DState None (Debounce.invoked st ++ [last])%list /\
  sublist (Debounce.invoked (Debounce.drun events Debounce.idle))
          (Debounce.called events).
Proof.
  split.
  - rewrite drun_app, drun_calls. reflexivity.
  - pose proof (drun_sublist events Debounce.idle [] (sublist_nil)) as H.
    cbn [app] in H. etransitivity; [|exact H].
    apply sublist_inserts_r. reflexivity.
Qed.

(** * The IUCN service *)

Section IucnTheorems.

Import Fetch Cache Retry Iucn.

Context (base : string) (response_json : Response -> json_body).

Lemma rethrow_as_api_never_plain {A : Type} message (r : outcome A) :
  match rethrow_as_api message r with
  | Rejects (Error _) => False
  | _ => True
  end.
Proof. destruct r as [a|[m s e|m]]; exact I. Qed.

Lemma categoryResult_resolves category res l :
  categoryResult base response_json category res = Resolves l ->
  exists r assessments error,
    res = Resolves r /\ ok r = true /\
    response_json r = BodyObject assessments error /\
    l = default [] assessments.
Proof.
  unfold categoryResult. destruct res as [r|e]; [|discriminate].
  destruct (ok r) eqn:Hok; cbn [negb]; [|discriminate].
  destruct (response_json r) as [| |assessments error] eqn:Hj;
    try discriminate.
  intros [= <-]. eauto 10.
Qed.

Lemma string_app_inv_head (p a b : string) : p ++ a = p ++ b -> a = b.
Proof.
  induction p as [|c p IH]; [auto|].
  change (String c (p ++ a) = String c (p ++ b) -> a = b).
  intros [= H]. auto.
Qed.

Lemma Z_to_string_inj (a b : Z) : Z_to_string a = Z_to_string b -> a = b.
Proof.
  unfold Z_to_string. intros H.
  apply (f_equal NilEmpty.int_of_string) in H.
  rewrite !NilEmpty.isi in H. injection H as H.
  apply (f_equal Z.of_int) in H. now rewrite !DecimalZ.of_to in H.
Qed.

End IucnTheorems.

(** X18. [getSpeciesByCategory] never throws anything but an
    [ApiError], and it returns a list only when the last attempt of the
    fetch got a 2xx response whose body is a JSON object: the list is
    the [assessments] field of that object, or empty when the field is
    missing. *)
Theorem category_result_is_typed (base : string)
    (response_json : Fetch.Response -> Iucn.json_body)
    (category : string) (page : Z) (env : Z -> Fetch.net) :
  match snd (Iucn.getSpeciesByCategory base response_json category page env)
  with
  | Fetch.Rejects (Fetch.Error _) => False
  | Fetch.Rejects (Fetch.ApiError _ _ _) => True
  | Fetch.Resolves l =>
      exists (k : nat) r assessments error,
        (k < 3)%nat /\ env (Z.of_nat k) = Fetch.Responds r /\
        200 <= Fetch.status r <= 299 /\
        response_json r = Iucn.BodyObject assessments error /\
        l = default [] assessments
  end.
Proof.
  unfold Iucn.getSpeciesByCategory.
  set (url := Iucn.getApiUrl base _).
  destruct (retry_log_shape_aux url env Fetch.DEFAULT_RETRY_ATTEMPTS)
    as (k & Hk & _ & Hres).
  destruct (Fetch.fetchWithRetry url env Fetch.DEFAULT_RETRY_ATTEMPTS)
    as [log res].
  cbn [fst snd] in *.
  pose proof (rethrow_as_api_never_plain
                "Network error while fetching species by category"
                (Iucn.categoryResult base response_json category res)) as Hn.
  destruct (Iucn.categoryResult base response_json category res)
    as [l|[m s e|m]] eqn:Hc; cbn [Iucn.rethrow_as_api] in *; auto.
  apply categoryResult_resolves in Hc
    as (r & assessments & error & -> & Hok & Hj & ->).
  destruct Hres as (Hk0 & Henv & _).
  destruct k as [|k]; [contradiction|].
  exists k, r, assessments, error.
  change (Z.to_nat Fetch.DEFAULT_RETRY_ATTEMPTS) with 3%nat in Hk.
  repeat split; auto; try lia.
  - rewrite <- Henv. f_equal. lia.
  - unfold Fetch.ok in Hok. lia.
  - unfold Fetch.ok in Hok. lia.
Qed.

(** X19. A 4xx response, which [fetchWithRetry] hands over without
    retrying, makes [getSpeciesByCategory] throw, after this single
    attempt, an [ApiError] that carries the status of the response and
    the URL of the category without the page. *)
Theorem category_client_error (base : string)
    (response_json : Fetch.Response -> Iucn.json_body)
    (category : string) (page : Z) (env : Z -> Fetch.net) (r : Fetch.Response)
    (He : env 0 = Fetch.Responds r)
    (H4 : 400 <= Fetch.status r < 500) :
  Iucn.getSpeciesByCategory base response_json category page env =
  ([Fetch.Attempt 0],
   Fetch.Rejects
     (Fetch.ApiError "Failed to fetch species by category"
        (Some (Fetch.status r))
        (Some (Iucn.getApiUrl base ("/red_list_categories/" ++ category))))).
Proof.
  unfold Iucn.getSpeciesByCategory.
  rewrite (first_response_accepted _ env _ r); [| reflexivity | exact He |].
  - unfold Iucn.categoryResult, Fetch.ok.
    replace ((200 <=? Fetch.status r) && (Fetch.status r <=? 299)) with false
      by lia.
    reflexivity.
  - apply accepted_iff. now right.
Qed.

Lemma category_client_error_witness :
  (fun _ : Z => Fetch.Responds Iucn.forbidden) 0 =
    Fetch.Responds Iucn.forbidden /\
  400 <= Fetch.status Iucn.forbidden < 500 /\
  Iucn.getSpeciesByCategory "http://localhost:3000" Iucn.sample_json "CR" 2
    (fun _ => Fetch.Responds Iucn.forbidden) =
  ([Fetch.Attempt 0],
   Fetch.Rejects
     (Fetch.ApiError "Failed to fetch species by category" (Some 403)
        (Some "http://localhost:3000/proxy-api/red_list_categories/CR"))).
Proof.
  assert (He : (fun _ : Z => Fetch.Responds Iucn.forbidden) 0 =
               Fetch.Responds Iucn.forbidden) by reflexivity.
  assert (H4 : 400 <= Fetch.status Iucn.forbidden < 500) by (cbn; lia).
  exact (conj He (conj H4
    (category_client_error "http://localhost:3000" Iucn.sample_json "CR" 2
       _ Iucn.forbidden He H4))).
Defined.

(** X20. When all three attempts fail, [getSpeciesByCategory] throws
    after the three attempts and both waits.  If the last failure is an
    [ApiError] (a response that is neither 2xx nor 4xx, or a timeout),
    that error is thrown as it is, with its status and the full URL; any
    other error is replaced by an [ApiError] that says
    "Network error while fetching species by category" and carries
    neither status nor URL. *)
Theorem category_exhausted (base : string)
    (response_json : Fetch.Response -> Iucn.json_body)
    (category : string) (page : Z) (env : Z -> Fetch.net)
    (Hall : forall k, 0 <= k < 3 -> Retry.retried (env k) = true) :
  let url := Iucn.getApiUrl base ("/red_list_categories/" ++ category
                                  ++ "?page=" ++ Fetch.Z_to_string page) in
  Iucn.getSpeciesByCategory base response_json category page env =
  ([Fetch.Attempt 0; Fetch.Sleep 1000; Fetch.Attempt 1; Fetch.Sleep 2000;
    Fetch.Attempt 2],
   match Retry.failure_of url (env 2) with
   | Fetch.ApiError m s e => Fetch.Rejects (Fetch.ApiError m s e)
   | Fetch.Error _ =>
       Fetch.Rejects
         (Fetch.ApiError "Network error while fetching species by category"
                         None None)
   end).
Proof.
  cbv zeta. unfold Iucn.getSpeciesByCategory.
  unfold Fetch.fetchWithRetry.
  rewrite (retryLoop_exhausted _ env Fetch.DEFAULT_RETRY_ATTEMPTS)
    by (try reflexivity; exact Hall).
  change (Z.to_nat Fetch.DEFAULT_RETRY_ATTEMPTS) with 3%nat.
  cbn [Iucn.categoryResult Iucn.rethrow_as_api].
  change (Fetch.DEFAULT_RETRY_ATTEMPTS - 1) with 2.
  destruct (Retry.failure_of _ (env 2)); reflexivity.
Qed.

Lemma category_exhausted_witness :
  (forall k, 0 <= k < 3 ->
     Retry.retried ((fun _ => Retry.failing) k) = true) /\
  Iucn.getSpeciesByCategory "http://localhost:3000" Iucn.sample_json "CR" 2
    (fun _ => Retry.failing) =
  ([Fetch.Attempt 0; Fetch.Sleep 1000; Fetch.Attempt 1; Fetch.Sleep 2000;
    Fetch.Attempt 2],
   Fetch.Rejects
     (Fetch.ApiError "Network error while fetching species by category"
                     None None)).
Proof.
  assert (Hall : forall k, 0 <= k < 3 ->
                   Retry.retried ((fun _ => Retry.failing) k) = true)
    by reflexivity.
  exact (conj Hall
    (category_exhausted "http://localhost:3000" Iucn.sample_json "CR" 2
       (fun _ => Retry.failing) Hall)).
Defined.

Section PageTheorems.

Import Fetch Cache Iucn.

Context (base : string) (response_json : Response -> json_body).
Context (parseInt : string -> option Z) (P : platform (list Species)).

(** Looking a name up in the batch result is the single lookup. *)
Lemma batch_then_get (m : gmap string string) names n :
  n ∈ names ->
  or_empty (Species.lookupNames m names !! n) = Species.lookupName m n.
Proof.
  intros Hin. unfold Species.lookupNames.
  rewrite lookupNames_fold, lookup_empty.
  rewrite bool_decide_eq_true_2 by assumption. cbn [andb].
  destruct (Species.lookupName m n); reflexivity.
Qed.

Lemma toSpecies_batch (m : gmap string string) (assessments : list Assessment) :
  toSpecies parseInt
    (Species.lookupNames m (taxon_scientific_name <$> assessments))
    <$> assessments =
  speciesOf parseInt m <$> assessments.
Proof.
  apply list_fmap_ext. intros i a Ha.
  unfold toSpecies, speciesOf. rewrite batch_then_get; [reflexivity|].
  apply list_elem_of_fmap. exists a. split; [reflexivity|].
  eapply list_elem_of_lookup_2, Ha.
Qed.

(** The fetch of a page whose first attempt gets a good answer. *)
Lemma pageResult_success page m r assessments error :
  ok r = true ->
  response_json r = BodyObject assessments error ->
  truthy (or_empty error) = false ->
  pageResult base response_json parseInt page m (Resolves r) =
  Resolves (speciesOf parseInt m <$> default [] assessments).
Proof.
  intros Hok Hj He. unfold pageResult. rewrite Hok, Hj, He. cbn [negb].
  cbv zeta. now rewrite toSpecies_batch.
Qed.

End PageTheorems.

(** X21. On a cache miss, when the first attempt gets a 2xx response
    whose JSON object has no [error], [getSpeciesByPage] returns one
    species per assessment, in the order of the assessments, each with
    the scientific name of its assessment, with the first word of that
    name as genus, and with the common name that a single lookup of the
    scientific name in the loaded map gives (empty when there is none);
    it has made one attempt. *)
Theorem page_species_carry_names (base : string)
    (response_json : Fetch.Response -> Iucn.json_body)
    (parseInt : string -> option Z)
    (P : Cache.platform (list Iucn.Species))
    (page now_read now_write : Z) (env : Z -> Fetch.net)
    (speciesCache store : gmap string string) (r : Fetch.Response)
    (assessments : list Iucn.Assessment) (error : option string)
    (Hmiss : (Cache.getCachedData P (Iucn.pageKey page) now_read store).2
             = None)
    (He : env 0 = Fetch.Responds r)
    (Hok : Fetch.ok r = true)
    (Hj : response_json r = Iucn.BodyObject (Some assessments) error)
    (Herr : truthy (Iucn.or_empty error) = false) :
  let result := Iucn.getSpeciesByPage base response_json parseInt P page
                  now_read now_write env speciesCache store in
  result.1.2 = [Fetch.Attempt 0] /\
  result.2 =
    Fetch.Resolves (Iucn.speciesOf parseInt speciesCache <$> assessments) /\
  forall i a, assessments !! i = Some a ->
    exists s,
      (Iucn.speciesOf parseInt speciesCache <$> assessments) !! i = Some s /\
      Iucn.scientific_name s = Iucn.taxon_scientific_name a /\
      Iucn.genus_name s = Iucn.firstWord (Iucn.taxon_scientific_name a) /\
      Iucn.main_common_name s =
        Species.lookupName speciesCache (Iucn.taxon_scientific_name a).
Proof.
  cbv zeta. unfold Iucn.getSpeciesByPage.
  destruct (Cache.getCachedData P (Iucn.pageKey page) now_read store)
    as [store1 cached].
  cbn [snd] in Hmiss. subst cached.
  rewrite (first_response_accepted _ env _ r);
    [| reflexivity | exact He | unfold Fetch.accepted; now rewrite Hok].
  rewrite (pageResult_success base response_json parseInt page speciesCache
             r (Some assessments) error Hok Hj Herr).
  cbn [default fst snd]. split; [reflexivity|]. split; [reflexivity|].
  intros i a Ha. exists (Iucn.speciesOf parseInt speciesCache a).
  rewrite list_lookup_fmap, Ha. repeat split.
Qed.

Lemma page_species_carry_names_witness :
  let result := Iucn.getSpeciesByPage "http://localhost:3000" Iucn.sample_json
                  Iucn.sample_parseInt Iucn.page_platform 1 0 5000
                  (fun _ => Fetch.Responds Iucn.wolves_response)
                  Species.wolf_map ∅ in
  (Cache.getCachedData Iucn.page_platform (Iucn.pageKey 1) 0 ∅).2 = None /\
  (fun _ : Z => Fetch.Responds Iucn.wolves_response) 0 =
    Fetch.Responds Iucn.wolves_response /\
  Fetch.ok Iucn.wolves_response = true /\
  Iucn.sample_json Iucn.wolves_response =
    Iucn.BodyObject (Some [Iucn.wolf]) None /\
  truthy (Iucn.or_empty None) = false /\
  result.2 = Fetch.Resolves [Iucn.wolf_species].
Proof.
  intros result.
  assert (Hmiss : (Cache.getCachedData Iucn.page_platform (Iucn.pageKey 1)
                     0 ∅).2 = None) by reflexivity.
  assert (He : (fun _ : Z => Fetch.Responds Iucn.wolves_response) 0 =
               Fetch.Responds Iucn.wolves_response) by reflexivity.
  assert (Hok : Fetch.ok Iucn.wolves_response = true) by reflexivity.
  assert (Hj : Iucn.sample_json Iucn.wolves_response =
               Iucn.BodyObject (Some [Iucn.wolf]) None) by reflexivity.
  assert (Herr : truthy (Iucn.or_empty None) = false) by reflexivity.
  refine (conj Hmiss (conj He (conj Hok (conj Hj (conj Herr _))))).
  exact (proj1 (proj2
    (page_species_carry_names "http://localhost:3000" Iucn.sample_json
       Iucn.sample_parseInt Iucn.page_platform 1 0 5000 _
       Species.wolf_map ∅ Iucn.wolves_response [Iucn.wolf] None
       Hmiss He Hok Hj Herr))).
Defined.

(** X22. A page that was fetched and written to the cache is served
    from the cache afterwards: while the entry is not older than 24
    hours, [getSpeciesByPage] returns the same species without any
    attempt on the network and leaves the store as it is, whatever the
    network would answer and whatever the loaded map then holds. *)
Theorem page_is_reused (base : string)
    (response_json : Fetch.Response -> Iucn.json_body)
    (parseInt : string -> option Z)
    (P : Cache.platform (list Iucn.Species))
    (page now_read now_write : Z) (env : Z -> Fetch.net)
    (speciesCache store : gmap string string) (r : Fetch.Response)
    (assessments : list Iucn.Assessment) (error : option string) (s : string)
    (Hmiss : (Cache.getCachedData P (Iucn.pageKey page) now_read store).2
             = None)
    (He : env 0 = Fetch.Responds r)
    (Hok : Fetch.ok r = true)
    (Hj : response_json r = Iucn.BodyObject (Some assessments) error)
    (Herr : truthy (Iucn.or_empty error) = false)
    (Ht : now_write <> 0)
    (Hw : Cache.written P
            (Cache.Envelope
               (Some (Iucn.speciesOf parseInt speciesCache <$> assessments))
               (Some now_write) (Some Iucn.CACHE_TTL))
            s (Iucn.pageKey page)
            (Cache.getCachedData P (Iucn.pageKey page) now_read store).1) :
  let first := Iucn.getSpeciesByPage base response_json parseInt P page
                 now_read now_write env speciesCache store in
  forall now t' env' speciesCache',
    now - now_write <= Iucn.CACHE_TTL ->
    Iucn.getSpeciesByPage base response_json parseInt P page now t' env'
      speciesCache' first.1.1 =
    (first.1.1, [],
     Fetch.Resolves (Iucn.speciesOf parseInt speciesCache <$> assessments)).
Proof.
  cbv zeta.
  assert (Hfirst :
    (Iucn.getSpeciesByPage base response_json parseInt P page now_read
       now_write env speciesCache store).1.1 =
    <[Iucn.pageKey page := s]>
      (Cache.getCachedData P (Iucn.pageKey page) now_read store).1).
  { unfold Iucn.getSpeciesByPage.
    destruct (Cache.getCachedData P (Iucn.pageKey page) now_read store)
      as [store1 cached].
    cbn [fst snd] in Hmiss, Hw |- *. subst cached.
    rewrite (first_response_accepted _ env _ r);
      [| reflexivity | exact He | unfold Fetch.accepted; now rewrite Hok].
    rewrite (pageResult_success base response_json parseInt page speciesCache
               r (Some assessments) error Hok Hj Herr).
    cbn [default fst snd].
    exact (setCachedData_written P _ _ _ _ _ _ Hw). }
  rewrite Hfirst. intros now t' env' speciesCache' Hfresh.
  destruct Hw as (_ & _ & Hs & Hp).
  unfold Iucn.getSpeciesByPage.
  rewrite (getCachedData_parsed P (Iucn.pageKey page) now _ s _
             (lookup_insert_eq _ _ _) Hs Hp).
  unfold Cache.has_timestamp. cbn [Cache._timestamp Cache._ttl Cache.value].
  replace (now_write =? 0) with false by lia.
  unfold Cache.or_Infinity, Cache.exceeds.
  change (Iucn.CACHE_TTL =? 0) with false. cbv iota.
  replace (Iucn.CACHE_TTL <? now - now_write) with false by lia.
  reflexivity.
Qed.

Lemma page_is_reused_witness :
  let P := Iucn.page_platform in
  let first := Iucn.getSpeciesByPage "http://localhost:3000" Iucn.sample_json
                 Iucn.sample_parseInt P 1 0 5000
                 (fun _ => Fetch.Responds Iucn.wolves_response)
                 Species.wolf_map ∅ in
  (Cache.getCachedData P (Iucn.pageKey 1) 0 ∅).2 = None /\
  (fun _ : Z => Fetch.Responds Iucn.wolves_response) 0 =
    Fetch.Responds Iucn.wolves_response /\
  Fetch.ok Iucn.wolves_response = true /\
  Iucn.sample_json Iucn.wolves_response =
    Iucn.BodyObject (Some [Iucn.wolf]) None /\
  truthy (Iucn.or_empty None) = false /\
  5000 <> 0 /\
  Cache.written P Iucn.page_envelope
    "{value:[wolf],_timestamp:5000,_ttl:86400000}" (Iucn.pageKey 1)
    (Cache.getCachedData P (Iucn.pageKey 1) 0 ∅).1 /\
  Iucn.getSpeciesByPage "http://localhost:3000" Iucn.sample_json
    Iucn.sample_parseInt P 1 3600000 3600000 (fun _ => Fetch.Hangs) ∅
    first.1.1 =
  (first.1.1, [], Fetch.Resolves [Iucn.wolf_species]).
Proof.
  intros P first.
  assert (Hmiss : (Cache.getCachedData P (Iucn.pageKey 1) 0 ∅).2 = None)
    by reflexivity.
  assert (He : (fun _ : Z => Fetch.Responds Iucn.wolves_response) 0 =
               Fetch.Responds Iucn.wolves_response) by reflexivity.
  assert (Hok : Fetch.ok Iucn.wolves_response = true) by reflexivity.
  assert (Hj : Iucn.sample_json Iucn.wolves_response =
               Iucn.BodyObject (Some [Iucn.wolf]) None) by reflexivity.
  assert (Herr : truthy (Iucn.or_empty None) = false) by reflexivity.
  assert (Ht : 5000 <> 0) by lia.
  assert (Hw : Cache.written P Iucn.page_envelope
                 "{value:[wolf],_timestamp:5000,_ttl:86400000}"
                 (Iucn.pageKey 1)
                 (Cache.getCachedData P (Iucn.pageKey 1) 0 ∅).1)
    by (repeat split; vm_compute; reflexivity).
  assert (Hfresh : 3600000 - 5000 <= Iucn.CACHE_TTL)
    by (vm_compute; discriminate).
  refine (conj Hmiss (conj He (conj Hok (conj Hj (conj Herr
            (conj Ht (conj Hw _))))))).
  exact (page_is_reused "http://localhost:3000" Iucn.sample_json
           Iucn.sample_parseInt P 1 0 5000 _ Species.wolf_map ∅
           Iucn.wolves_response [Iucn.wolf] None _
           Hmiss He Hok Hj Herr Ht Hw
           3600000 3600000 (fun _ => Fetch.Hangs) ∅ Hfresh).
Defined.

(** X23. Different pages have different cache keys, and no page key is
    the key of the species list: by the independence of keys, the
    cached pages and the cached species list never replace one
    another. *)
Theorem page_keys_are_distinct (page page' : Z) (Hne : page <> page') :
  Iucn.pageKey page <> Iucn.pageKey page' /\
  Iucn.pageKey page <> Species.cache_key.
Proof.
  split.
  - intros H. apply Hne. unfold Iucn.pageKey in H.
    now apply string_app_inv_head, Z_to_string_inj in H.
  - unfold Iucn.pageKey, Species.cache_key.
    change ("iucn_page_" ++ Fetch.Z_to_string page)
      with (String "i"%char ("ucn_page_" ++ Fetch.Z_to_string page)).
    discriminate.
Qed.

Lemma page_keys_are_distinct_witness :
  1 <> 2 /\ Iucn.pageKey 1 <> Iucn.pageKey 2.
Proof.
  assert (Hne : 1 <> 2) by lia.
  exact (conj Hne (proj1 (page_keys_are_distinct 1 2 Hne))).
Defined.

(** * The species list of the user interface *)

Section SpeciesListTheorems.

Import Iucn SpeciesList.

Lemma findIndex_lt {A : Type} (p : A -> bool) l i :
  findIndex p l = Some i -> (i < length l)%nat.
Proof.
  revert i. induction l as [|x r IH]; intros i; cbn; [discriminate|].
  destruct (p x); [intros [= <-]; lia|].
  destruct (findIndex p r) as [j|]; [|discriminate].
  intros [= <-]. specialize (IH j eq_refl). lia.
Qed.

Lemma findIndex_app {A : Type} (p : A -> bool) pre l :
  findIndex p (pre ++ l)%list =
  if existsb p pre then findIndex p pre
  else (fun i => (length pre + i)%nat) <$> findIndex p l.
Proof.
  induction pre as [|x r IH]; cbn.
  - now destruct (findIndex p l).
  - destruct (p x); cbn; [reflexivity|]. rewrite IH.
    destruct (existsb p r); [reflexivity|].
    now destruct (findIndex p l).
Qed.

Lemma existsb_taxonid z (pre : list Species) :
  existsb (fun s => taxonid s =? z) pre = bool_decide (z ∈ taxonid <$> pre).
Proof.
  induction pre as [|x r IH]; cbn.
  - rewrite bool_decide_eq_false_2; [reflexivity | apply not_elem_of_nil].
  - rewrite IH. destruct (taxonid x =? z) eqn:E; cbn.
    + apply Z.eqb_eq in E. subst z.
      rewrite bool_decide_eq_true_2; [reflexivity | left].
    + apply Z.eqb_neq in E. apply bool_decide_ext.
      rewrite elem_of_cons. intuition congruence.
Qed.

(** The test of [uniqueSpecies] at the position after [pre]: the species
    is kept when no species before it has its [taxonid]. *)
Lemma first_index_test (pre : list Species) x r :
  bool_decide (findIndex (fun s => taxonid s =? taxonid x) (pre ++ x :: r)%list
               = Some (length pre)) =
  negb (bool_decide (taxonid x ∈ taxonid <$> pre)).
Proof.
  rewrite findIndex_app, existsb_taxonid.
  destruct (bool_decide (taxonid x ∈ taxonid <$> pre)); cbn [negb].
  - apply bool_decide_eq_false_2. intros Hf. apply findIndex_lt in Hf. lia.
  - apply bool_decide_eq_true_2. cbn. rewrite Z.eqb_refl. cbn.
    f_equal. lia.
Qed.

Lemma firstOccurrences_ext seen1 seen2 l :
  (forall z, z ∈ seen1 <-> z ∈ seen2) ->
  firstOccurrences seen1 l = firstOccurrences seen2 l.
Proof.
  revert seen1 seen2. induction l as [|x r IH]; intros seen1 seen2 H;
    [reflexivity|].
  cbn. rewrite (bool_decide_ext _ _ (H (taxonid x))).
  case_bool_decide; [now apply IH|].
  f_equal. apply IH. intros z. rewrite !elem_of_cons, H. reflexivity.
Qed.

Lemma filterFrom_first_occurrences l :
  forall pre,
    filterFrom
      (fun species index =>
         bool_decide (findIndex (fun s => taxonid s =? taxonid species)
                                (pre ++ l)%list = Some index))
      (length pre) l =
    firstOccurrences (taxonid <$> pre) l.
Proof.
  induction l as [|x r IH]; intros pre; [reflexivity|].
  cbn [filterFrom firstOccurrences]. rewrite first_index_test.
  specialize (IH (pre ++ [x])%list).
  rewrite <- app_assoc, length_app, Nat.add_1_r in IH. cbn [app] in IH.
  rewrite IH. case_bool_decide as Hin; cbn [negb].
  - apply firstOccurrences_ext. intros z.
    rewrite fmap_app, elem_of_app. cbn. rewrite list_elem_of_singleton.
    intuition congruence.
  - f_equal. apply firstOccurrences_ext. intros z.
    rewrite fmap_app, elem_of_app, elem_of_cons. cbn.
    rewrite list_elem_of_singleton. intuition.
Qed.

Lemma uniqueSpecies_first_occurrences data :
  uniqueSpecies data = firstOccurrences [] data.
Proof. exact (filterFrom_first_occurrences data []). Qed.

Lemma firstOccurrences_fresh seen l s :
  s ∈ firstOccurrences seen l -> taxonid s ∉ seen.
Proof.
  revert seen. induction l as [|x r IH]; intros seen; cbn.
  - intros H. now apply not_elem_of_nil in H.
  - case_bool_decide as Hin; [apply IH|].
    intros [-> | H]%elem_of_cons; [exact Hin|].
    apply IH in H. rewrite elem_of_cons in H. tauto.
Qed.

Lemma firstOccurrences_NoDup seen l :
  NoDup (taxonid <$> firstOccurrences seen l).
Proof.
  revert seen. induction l as [|x r IH]; intros seen; cbn; [constructor|].
  case_bool_decide; [apply IH|].
  cbn. constructor; [|apply IH].
  intros (s & Hs & Hin)%list_elem_of_fmap.
  apply firstOccurrences_fresh in Hin. apply Hin. rewrite Hs. left.
Qed.

Lemma firstOccurrences_sublist seen l : sublist (firstOccurrences seen l) l.
Proof.
  revert seen. induction l as [|x r IH]; intros seen; cbn; [constructor|].
  case_bool_decide; [apply sublist_cons, IH | apply sublist_skip, IH].
Qed.

Lemma firstOccurrences_covers seen l s :
  s ∈ l ->
  taxonid s ∈ seen \/
  exists s', s' ∈ firstOccurrences seen l /\ taxonid s' = taxonid s.
Proof.
  revert seen. induction l as [|x r IH]; intros seen Hs.
  - now apply not_elem_of_nil in Hs.
  - cbn. apply elem_of_cons in Hs as [-> | Hs].
    + case_bool_decide; [now left|]. right. exists x. split; [left|reflexivity].
    + case_bool_decide.
      * now apply IH.
      * destruct (IH (taxonid x :: seen) Hs) as [Hin | (s' & Hs' & Heq)].
        -- apply elem_of_cons in Hin as [Heq | Hin]; [|now left].
           right. exists x. split; [left | now symmetry].
        -- right. exists s'. split; [now right | exact Heq].
Qed.

Lemma firstOccurrences_idem seen l :
  firstOccurrences seen (firstOccurrences seen l) = firstOccurrences seen l.
Proof.
  revert seen. induction l as [|x r IH]; intros seen; cbn; [reflexivity|].
  case_bool_decide as Hin; [apply IH|].
  cbn. rewrite bool_decide_eq_false_2 by assumption. now rewrite IH.
Qed.

Lemma matches_lower t t' s :
  toLowerCase t = toLowerCase t' -> matches t s = matches t' s.
Proof. intros H. unfold matches. now rewrite H. Qed.

End SpeciesListTheorems.

(** X24. The list that [SpeciesList] keeps of a fetched page has no
    two species with the same [taxonid]; it is a sublist of the page,
    in the same order; every [taxonid] of the page is still there, with
    the first species of the page that has it; and removing duplicates a
    second time changes nothing. *)
Theorem unique_species_spec (data : list Iucn.Species) :
  NoDup (Iucn.taxonid <$> SpeciesList.uniqueSpecies data) /\
  sublist (SpeciesList.uniqueSpecies data) data /\
  (forall s, s ∈ data ->
     exists s', s' ∈ SpeciesList.uniqueSpecies data /\
                Iucn.taxonid s' = Iucn.taxonid s) /\
  SpeciesList.uniqueSpecies data = SpeciesList.firstOccurrences [] data /\
  SpeciesList.uniqueSpecies (SpeciesList.uniqueSpecies data) =
    SpeciesList.uniqueSpecies data.
Proof.
  rewrite !uniqueSpecies_first_occurrences.
  split; [apply firstOccurrences_NoDup|].
  split; [apply firstOccurrences_sublist|].
  split; [|split; [reflexivity | apply firstOccurrences_idem]].
  intros s Hs.
  destruct (firstOccurrences_covers [] data s Hs) as [Hin | H]; [|exact H].
  now apply not_elem_of_nil in Hin.
Qed.

(** X25. The search of [SpeciesList] does not depend on the case of the
    search term: two terms with the same lower-case form select the same
    species.  The empty term selects every species, and every species
    selected has the lower-cased term in its lower-cased common name or
    scientific name. *)
Theorem search_ignores_case (species : list Iucn.Species) (t t' : string)
    (Hsame : toLowerCase t = toLowerCase t') :
  SpeciesList.filteredSpecies species t =
    SpeciesList.filteredSpecies species t' /\
  SpeciesList.filteredSpecies species "" = species /\
  forall s, In s (SpeciesList.filteredSpecies species t) ->
    In s species /\
    (includes (toLowerCase t) (toLowerCase (Iucn.main_common_name s)) = true \/
     includes (toLowerCase t) (toLowerCase (Iucn.scientific_name s)) = true).
Proof.
  unfold SpeciesList.filteredSpecies. split; [|split].
  - apply List.filter_ext. intros s. now apply matches_lower.
  - induction species as [|s l IH]; [reflexivity|].
    cbn [List.filter]. unfold SpeciesList.matches at 1.
    change (toLowerCase "") with "". rewrite includes_empty. cbn [orb].
    now rewrite IH.
  - intros s [Hin Hm]%List.filter_In. split; [exact Hin|].
    unfold SpeciesList.matches in Hm. now apply orb_true_iff in Hm.
Qed.

Lemma search_ignores_case_witness :
  toLowerCase "WOLF" = toLowerCase "wolf" /\
  SpeciesList.filteredSpecies [Iucn.wolf_species] "WOLF" =
    [Iucn.wolf_species].
Proof.
  assert (Hsame : toLowerCase "WOLF" = toLowerCase "wolf") by reflexivity.
  split; [exact Hsame|].
  rewrite (proj1 (search_ignores_case [Iucn.wolf_species] "WOLF" "wolf" Hsame)).
  vm_compute. reflexivity.
Defined.

(** X26. [getSpeciesByPage] never throws anything but an [ApiError],
    and a call that throws writes nothing to the cache: the store is
    left as the read of the cache left it, so the next call for the page
    asks the network again. *)
Theorem page_failure_is_typed (base : string)
    (response_json : Fetch.Response -> Iucn.json_body)
    (parseInt : string -> option Z)
    (P : Cache.platform (list Iucn.Species))
    (page now_read now_write : Z) (env : Z -> Fetch.net)
    (speciesCache store : gmap string string) :
  let result := Iucn.getSpeciesByPage base response_json parseInt P page
                  now_read now_write env speciesCache store in
  match result.2 with
  | Fetch.Rejects (Fetch.Error _) => False
  | Fetch.Rejects (Fetch.ApiError _ _ _) =>
      result.1.1 = (Cache.getCachedData P (Iucn.pageKey page) now_read store).1
  | Fetch.Resolves _ => True
  end.
Proof.
  cbv zeta. unfold Iucn.getSpeciesByPage.
  destruct (Cache.getCachedData P (Iucn.pageKey page) now_read store)
    as [store1 [cached|]]; [exact I|].
  destruct (Fetch.fetchWithRetry _ env Fetch.DEFAULT_RETRY_ATTEMPTS)
    as [log res].
  destruct (Iucn.pageResult base response_json parseInt page speciesCache res)
    as [l|[m s e|m]]; cbn; auto.
Qed.

(** X27. With no attempt allowed ([maxRetries] zero or negative),
    [fetchWithRetry] does not touch the network and throws the
    [ApiError] "Unknown error" that names the URL; this is the only case
    in which no failure was recorded. *)
Theorem retry_without_attempts (url : string) (env : Z -> Fetch.net)
    (maxRetries : Z) (Hn : maxRetries <= 0) :
  Fetch.fetchWithRetry url env maxRetries =
  ([], Fetch.Rejects (Fetch.ApiError "Unknown error" None (Some url))).
Proof.
  unfold Fetch.fetchWithRetry.
  replace (Z.to_nat maxRetries) with 0%nat by lia. reflexivity.
Qed.

Lemma retry_without_attempts_witness :
  0 <= 0 /\
  Fetch.fetchWithRetry "/taxa" (fun _ => Fetch.Responds Fetch.not_found) 0 =
  ([], Fetch.Rejects (Fetch.ApiError "Unknown error" None (Some "/taxa"))).
Proof.
  assert (Hn : 0 <= 0) by lia.
  exact (conj Hn (retry_without_attempts "/taxa" _ 0 Hn)).
Defined.
